(** * The Stokes channel problem of [examples/problems/stokes.py]

    The file defines one class, [Stokes], holding the output variables, the
    spatial domain, five residual functions and the dictionary of
    conditions.  The residual functions are written against [torch] tensors
    and the [pina] operators [grad], [div] and [nabla]; neither library is
    part of the example, so a small model of both comes first.

    Scalars are exact rationals: rounding of machine floats is not
    modelled. *)

From Stdlib Require Import QArith Qpower Lqa.
From stdpp Require Import gmap strings list fin_maps.

Local Open Scope Q_scope.

(** ** Tensors that remember how they were computed *)

Module torch.

(** Modelled from the spec: the automatic-differentiation engine.  A tensor
    entry is the computation graph that produced it from the columns of the
    input tensor, which are the leaves.  [Act k g] is the [k]-th derivative
    of the network's activation function applied to [g] ([k = 0]: the
    activation itself), so that feed-forward networks are graphs too. *)
Inductive graph : Type :=
| Const (c : Q)
| Leaf (l : string)
| Neg (g : graph)
| Add (g h : graph)
| Sub (g h : graph)
| Mul (g h : graph)
| Pow (g : graph) (n : nat)
| Act (k : nat) (g : graph).

(** A sample point gives a value to every input label. *)
Definition point : Type := string -> Q.

Section Values.
(** The activation function and its derivatives, by order. *)
Variable sigma : nat -> Q -> Q.

Fixpoint eval (pt : point) (g : graph) : Q :=
  match g with
  | Const c => c
  | Leaf l => pt l
  | Neg g => - eval pt g
  | Add g h => eval pt g + eval pt h
  | Sub g h => eval pt g - eval pt h
  | Mul g h => eval pt g * eval pt h
  | Pow g n => Qpower (eval pt g) (Z.of_nat n)
  | Act k g => sigma k (eval pt g)
  end.
End Values.

(** Modelled from the spec: reverse-mode differentiation of a graph with
    respect to the input column labelled [l] (what [torch.autograd.grad]
    computes along the graph). *)
Fixpoint D (l : string) (g : graph) : graph :=
  match g with
  | Const _ => Const 0
  | Leaf l' => if String.eqb l l' then Const 1 else Const 0
  | Neg g => Neg (D l g)
  | Add g h => Add (D l g) (D l h)
  | Sub g h => Sub (D l g) (D l h)
  | Mul g h => Add (Mul (D l g) h) (Mul g (D l h))
  | Pow g n => Mul (Mul (Const (inject_Z (Z.of_nat n))) (Pow g (Nat.pred n))) (D l g)
  | Act k g => Mul (Act (S k) g) (D l g)
  end.

(** One row of a two-dimensional tensor, column by column, as a function of
    the sample point; a batch has one such row per point. *)
Definition Tensor : Type := list graph.

Definition values (sigma : nat -> Q -> Q) (pt : point) (t : Tensor) : list Q :=
  map (eval sigma pt) t.

(** Modelled from the spec: tensor arithmetic.  Two tensors combine column
    by column when their widths agree, a one-column tensor is broadcast, and
    any other pair of widths is a shape error. *)
Definition broadcast (op : graph -> graph -> graph) (a b : Tensor) : option Tensor :=
  match a, b with
  | [x], _ => Some (map (op x) b)
  | _, [y] => Some (map (fun x => op x y) a)
  | _, _ => if Nat.eqb (length a) (length b) then Some (zip_with op a b) else None
  end.

Definition neg (a : Tensor) : Tensor := map Neg a.
Definition add (a b : Tensor) : option Tensor := broadcast Add a b.
Definition sub (a b : Tensor) : option Tensor := broadcast Sub a b.

(** Arithmetic with a Python number: [a - c], [c - a], [c * a], [a ** n]. *)
Definition sub_scalar (a : Tensor) (c : Q) : Tensor := map (fun x => Sub x (Const c)) a.
Definition rsub_scalar (c : Q) (a : Tensor) : Tensor := map (Sub (Const c)) a.
Definition rmul_scalar (c : Q) (a : Tensor) : Tensor := map (Mul (Const c)) a.
Definition pow_scalar (a : Tensor) (n : nat) : Tensor := map (fun x => Pow x n) a.

(** [torch.hstack]: the columns of the first tensor, then of the second. *)
Definition hstack (a b : Tensor) : Tensor := a ++ b.

End torch.

(** ** Labelled tensors, differential operators and regions *)

Module pina.
Import torch.

(** Modelled from the spec: [LabelTensor], a tensor whose columns carry
    names, here called labels. *)
Record LabelTensor : Type := mkLabelTensor {
  tensor : Tensor;
  labels : list string
}.

(** Modelled from the spec: the constructor [LabelTensor(x, labels)]; it
    takes one label per column and raises otherwise. *)
Definition LabelTensor_init (x : Tensor) (ls : list string) : option LabelTensor :=
  if Nat.eqb (length x) (length ls) then Some (mkLabelTensor x ls) else None.

(** The column carrying label [l]: the first one, when a label is repeated. *)
Definition column (t : LabelTensor) (l : string) : option graph :=
  '(i, _) ← list_find (fun l' => l' = l) (labels t);
  tensor t !! i.

(** Modelled from the spec: [t.extract(ls)], the columns named in [ls], in
    that order; a name that is not a label of [t] is a schema error. *)
Definition extract (t : LabelTensor) (ls : list string) : option LabelTensor :=
  cols ← mapM (column t) ls;
  Some (mkLabelTensor cols ls).

(** The input tensor of a residual function: its columns are the leaves of
    every graph, one per label. *)
Definition coordinates (ls : list string) : LabelTensor :=
  mkLabelTensor (map Leaf ls) ls.

Definition sum_columns (t : Tensor) : graph :=
  match t with
  | [] => Const 0
  | g :: gs => foldl Add g gs
  end.

(** Modelled from the spec: [grad], the gradient of a scalar field with
    respect to the input coordinates, labelled like the input.  The problem
    applies it to one-column tensors only; other widths are left out. *)
Definition grad (output_ : Tensor) (input_ : LabelTensor) : option LabelTensor :=
  match output_ with
  | [u] => Some (mkLabelTensor (map (fun l => D l u) (labels input_)) (labels input_))
  | _ => None
  end.

(** Modelled from the spec: [div], the divergence of a vector field; its
    [i]-th component is differentiated along the [i]-th input coordinate. *)
Definition div (output_ : Tensor) (input_ : LabelTensor) : option Tensor :=
  if Nat.eqb (length output_) (length (labels input_))
  then Some [sum_columns (zip_with (fun u l => D l u) output_ (labels input_))]
  else None.

(** Modelled from the spec: [nabla], the Laplacian of a scalar field, the
    divergence of its gradient. *)
Definition nabla (output_ : Tensor) (input_ : LabelTensor) : option Tensor :=
  g ← grad output_ input_;
  div (tensor g) input_.

(** Modelled from the spec: [Span], an axis-aligned region given by one
    entry per variable, either a closed range [[lo, hi]] or a fixed value. *)
Inductive extent : Type :=
| Range (lo hi : Q)
| Fixed (v : Q).

Definition Span : Type := list (string * extent).

Definition within (v : Q) (e : extent) : Prop :=
  match e with
  | Range lo hi => lo <= v /\ v <= hi
  | Fixed c => v == c
  end.

Definition withinb (v : Q) (e : extent) : bool :=
  match e with
  | Range lo hi => Qle_bool lo v && Qle_bool v hi
  | Fixed c => Qeq_bool v c
  end.

(** The points of a region. *)
Definition contains (s : Span) (pt : point) : Prop :=
  Forall (fun le => within (pt le.1) le.2) s.

Definition containsb (s : Span) (pt : point) : bool :=
  forallb (fun le => withinb (pt le.1) le.2) s.

(** A residual function takes the input tensor and the network output. *)
Definition residual : Type := LabelTensor -> LabelTensor -> option Tensor.

(** Modelled from the spec: [Condition], a region with one residual
    function or a list of them. *)
Inductive functions : Type :=
| Single (f : residual)
| Several (fs : list residual).

Record Condition : Type := mkCondition {
  location : Span;
  function : functions
}.

(** A Python dictionary display: the entries are inserted from left to
    right, a repeated key keeps the last value. *)
Definition dict {V : Type} (entries : list (string * V)) : gmap string V :=
  foldl (fun m kv => <[kv.1 := kv.2]> m) ∅ entries.

(** Modelled from the spec: [SpatialProblem], the attributes the solver
    reads. *)
Record SpatialProblem : Type := mkSpatialProblem {
  output_variables : list string;
  spatial_domain : Span;
  conditions : gmap string Condition
}.

End pina.

(** ** The problem *)

Module stokes.
Import torch pina.

Definition momentum (input_ output_ : LabelTensor) : option Tensor :=
  ux ← extract output_ ["ux"];
  lap_ux ← nabla (tensor ux) input_;
  nabla_x ← LabelTensor_init lap_ux ["x"];
  uy ← extract output_ ["uy"];
  lap_uy ← nabla (tensor uy) input_;
  nabla_y ← LabelTensor_init lap_uy ["y"];
  let nabla_ := hstack (tensor nabla_x) (tensor nabla_y) in
  p ← extract output_ ["p"];
  grad_p ← grad (tensor p) input_;
  add (neg nabla_) (tensor grad_p).

Definition continuity (input_ output_ : LabelTensor) : option Tensor :=
  u ← extract output_ ["ux"; "uy"];
  div (tensor u) input_.

Definition inlet (input_ output_ : LabelTensor) : option Tensor :=
  y ← extract input_ ["y"];
  let value := rmul_scalar 2 (rsub_scalar 1 (pow_scalar (tensor y) 2)) in
  ux ← extract output_ ["ux"];
  sub (tensor ux) value.

Definition outlet (input_ output_ : LabelTensor) : option Tensor :=
  let value := 0 in
  p ← extract output_ ["p"];
  Some (sub_scalar (tensor p) value).

Definition wall (input_ output_ : LabelTensor) : option Tensor :=
  let value := 0 in
  u ← extract output_ ["ux"; "uy"];
  Some (sub_scalar (tensor u) value).

Definition Stokes : SpatialProblem := {|
  output_variables := ["ux"; "uy"; "p"];
  spatial_domain := [("x", Range (-2) 2); ("y", Range (-1) 1)];
  conditions := dict [
    ("gamma_top", mkCondition [("x", Range (-2) 2); ("y", Fixed 1)] (Single wall));
    ("gamma_bot", mkCondition [("x", Range (-2) 2); ("y", Fixed (-1))] (Single wall));
    ("gamma_out", mkCondition [("x", Fixed 2); ("y", Range (-1) 1)] (Single outlet));
    ("gamma_in", mkCondition [("x", Fixed (-2)); ("y", Range (-1) 1)] (Single inlet));
    ("D", mkCondition [("x", Range (-2) 2); ("y", Range (-1) 1)] (Several [momentum; continuity]))
  ]
|}.

End stokes.

(** ** The same functions on a store

    Python passes tensors by reference and the class attributes are shared,
    mutable objects.  To speak about effects, the residual functions are
    written once more against an explicit store.  A function body can read
    and overwrite objects, assign to the class and call the operations of
    [torch] and [pina]; these are not part of the example, so the bodies
    take them as a parameter. *)

Module store.
Import torch.

Inductive object : Type :=
| Plain (t : Tensor)
| Labelled (t : pina.LabelTensor).

Definition data (o : object) : Tensor :=
  match o with
  | Plain t => t
  | Labelled t => pina.tensor t
  end.

Definition as_labelled (o : object) : option pina.LabelTensor :=
  match o with
  | Plain _ => None
  | Labelled t => Some t
  end.

(** What an evaluation could change: the attributes of the class and the
    objects on the heap. *)
Record state : Type := mkState {
  problem : pina.SpatialProblem;
  heap : list object
}.

(** A reference is a position in the heap. *)
Definition ref : Type := nat.

(** A computation ends with a value or with an exception ([None]); either
    way it leaves a state behind. *)
Definition M (A : Type) : Type := state -> option A * state.

#[global] Instance M_ret : MRet M := fun A a s => (Some a, s).

#[global] Instance M_bind : MBind M := fun A B f m s =>
  match m s with
  | (Some a, s') => f a s'
  | (None, s') => (None, s')
  end.

Definition lift {A : Type} (o : option A) : M A := fun s => (o, s).

Definition load (r : ref) : M object := fun s => (heap s !! r, s).

(** A new object goes behind the existing ones and nothing else moves. *)
Definition alloc (o : object) : M ref := fun s =>
  (Some (length (heap s)), mkState (problem s) (heap s ++ [o])).

(** Writes: an object is overwritten in place, as by [a -= c]; the class
    gets other attributes, as by an assignment to [Stokes.conditions]. *)
Definition update (r : ref) (o : object) : M unit := fun s =>
  (Some tt, mkState (problem s) (<[r := o]> (heap s))).

Definition assign (p : pina.SpatialProblem) : M unit := fun s =>
  (Some tt, mkState p (heap s)).

(** The operations the residual functions call. *)
Inductive operation : Type :=
| Extract (ls : list string)
| Construct (ls : list string)
| Grad
| Div
| Nabla
| Hstack
| Negate
| Plus
| Minus
| MinusScalar (c : Q)
| ScalarMinus (c : Q)
| ScalarTimes (c : Q)
| Power (n : nat).

(** What an operation computes from the contents of its operands. *)
Definition denote (o : operation) (xs : list object) : option object :=
  match o, xs with
  | Extract ls, [t] =>
      x ← as_labelled t; y ← pina.extract x ls; Some (Labelled y)
  | Construct ls, [x] =>
      y ← pina.LabelTensor_init (data x) ls; Some (Labelled y)
  | Grad, [u; i] =>
      x ← as_labelled i; y ← pina.grad (data u) x; Some (Labelled y)
  | Div, [u; i] =>
      x ← as_labelled i; y ← pina.div (data u) x; Some (Plain y)
  | Nabla, [u; i] =>
      x ← as_labelled i; y ← pina.nabla (data u) x; Some (Plain y)
  | Hstack, [a; b] => Some (Plain (torch.hstack (data a) (data b)))
  | Negate, [a] => Some (Plain (torch.neg (data a)))
  | Plus, [a; b] => y ← torch.add (data a) (data b); Some (Plain y)
  | Minus, [a; b] => y ← torch.sub (data a) (data b); Some (Plain y)
  | MinusScalar c, [a] => Some (Plain (torch.sub_scalar (data a) c))
  | ScalarMinus c, [a] => Some (Plain (torch.rsub_scalar c (data a)))
  | ScalarTimes c, [a] => Some (Plain (torch.rmul_scalar c (data a)))
  | Power n, [a] => Some (Plain (torch.pow_scalar (data a) n))
  | _, _ => None
  end.

Section Library.
(** How the library carries out an operation on references. *)
Variable call : operation -> list ref -> M ref.

Definition extract (t : ref) (ls : list string) : M ref := call (Extract ls) [t].
Definition LabelTensor (x : ref) (ls : list string) : M ref := call (Construct ls) [x].
Definition grad (output_ input_ : ref) : M ref := call Grad [output_; input_].
Definition div (output_ input_ : ref) : M ref := call Div [output_; input_].
Definition nabla (output_ input_ : ref) : M ref := call Nabla [output_; input_].
Definition hstack (a b : ref) : M ref := call Hstack [a; b].
Definition neg (a : ref) : M ref := call Negate [a].
Definition add (a b : ref) : M ref := call Plus [a; b].
Definition sub (a b : ref) : M ref := call Minus [a; b].
Definition sub_scalar (a : ref) (c : Q) : M ref := call (MinusScalar c) [a].
Definition rsub_scalar (c : Q) (a : ref) : M ref := call (ScalarMinus c) [a].
Definition rmul_scalar (c : Q) (a : ref) : M ref := call (ScalarTimes c) [a].
Definition pow_scalar (a : ref) (n : nat) : M ref := call (Power n) [a].

Definition momentum (input_ output_ : ref) : M ref :=
  ux ← extract output_ ["ux"];
  lap_ux ← nabla ux input_;
  nabla_x ← LabelTensor lap_ux ["x"];
  uy ← extract output_ ["uy"];
  lap_uy ← nabla uy input_;
  nabla_y ← LabelTensor lap_uy ["y"];
  nabla_ ← hstack nabla_x nabla_y;
  minus ← neg nabla_;
  p ← extract output_ ["p"];
  grad_p ← grad p input_;
  add minus grad_p.

Definition continuity (input_ output_ : ref) : M ref :=
  u ← extract output_ ["ux"; "uy"];
  div u input_.

Definition inlet (input_ output_ : ref) : M ref :=
  y ← extract input_ ["y"];
  y2 ← pow_scalar y 2;
  d ← rsub_scalar 1 y2;
  value ← rmul_scalar 2 d;
  ux ← extract output_ ["ux"];
  sub ux value.

Definition outlet (input_ output_ : ref) : M ref :=
  let value := 0 in
  p ← extract output_ ["p"];
  sub_scalar p value.

Definition wall (input_ output_ : ref) : M ref :=
  let value := 0 in
  u ← extract output_ ["ux"; "uy"];
  sub_scalar u value.

(** A variant of [wall] that subtracts in place, [output_ -= value], before
    it extracts the velocity; for comparison. *)
Definition wall_in_place (input_ output_ : ref) : M ref :=
  let value := 0 in
  x ← load output_;
  t ← lift (as_labelled x);
  _ ← update output_
        (Labelled (pina.mkLabelTensor (torch.sub_scalar (pina.tensor t) value)
                     (pina.labels t)));
  extract output_ ["ux"; "uy"].
End Library.

(** The later state keeps the class attributes and every object of the
    earlier one; it may hold new objects behind them. *)
Definition extends (s s' : state) : Prop :=
  problem s' = problem s /\ exists fresh, heap s' = heap s ++ fresh.

(** A library without side effects: an operation whose operands hold the
    contents [xs] raises when [denote] gives nothing and otherwise returns
    a reference to what [denote] gives; either way it only allocates. *)
Definition well_behaved (call : operation -> list ref -> M ref) : Prop :=
  forall o args xs s,
    Forall2 (fun r x => heap s !! r = Some x) args xs ->
    exists s', extends s s' /\
      match denote o xs with
      | Some y => exists r, call o args s = (Some r, s') /\ heap s' !! r = Some y
      | None => call o args s = (None, s')
      end.

(** Such a library: the operands are read, the result is allocated. *)
Definition reference (o : operation) (args : list ref) : M ref :=
  xs ← mapM load args; y ← lift (denote o xs); alloc y.

(** The outcome [res] of a computation started in state [s] agrees with
    [v]: the final state extends [s], and either both are errors or [res]
    is a reference to a tensor with the columns [v]. *)
Definition agrees (res : option ref * state) (s : state) (v : option Tensor) : Prop :=
  extends s res.2 /\
  match v, res.1 with
  | Some t, Some r => data <$> heap res.2 !! r = Some t
  | None, None => True
  | _, _ => False
  end.

End store.

(** The five residual functions, by name. *)
Inductive residual_name : Type :=
| Momentum | Continuity | Inlet | Outlet | Wall.

Definition pure (n : residual_name) : pina.residual :=
  match n with
  | Momentum => stokes.momentum
  | Continuity => stokes.continuity
  | Inlet => stokes.inlet
  | Outlet => stokes.outlet
  | Wall => stokes.wall
  end.

Definition run (call : store.operation -> list store.ref -> store.M store.ref)
    (n : residual_name) : store.ref -> store.ref -> store.M store.ref :=
  match n with
  | Momentum => store.momentum call
  | Continuity => store.continuity call
  | Inlet => store.inlet call
  | Outlet => store.outlet call
  | Wall => store.wall call
  end.

(** ** Vocabulary of the statements *)

Import torch pina stokes.

(** The input tensor of the residual functions on [D]: the coordinates [x]
    and [y] of the sampled points. *)
Definition xy : LabelTensor := coordinates ["x"; "y"].

(** Value at a point of the derivative of a field along one coordinate. *)
Definition partial (sigma : nat -> Q -> Q) (l : string) (u : graph) (pt : point) : Q :=
  eval sigma pt (D l u).

Definition laplacian (sigma : nat -> Q -> Q) (u : graph) (pt : point) : Q :=
  partial sigma "x" (D "x" u) pt + partial sigma "y" (D "y" u) pt.

Definition gradient (sigma : nat -> Q -> Q) (u : graph) (pt : point) : list Q :=
  [partial sigma "x" u pt; partial sigma "y" u pt].

Definition divergence (sigma : nat -> Q -> Q) (ux uy : graph) (pt : point) : Q :=
  partial sigma "x" ux pt + partial sigma "y" uy pt.

(** A residual is zero when each of its components is. *)
Definition vanishes (vs : list Q) : Prop := Forall (fun v => v == 0) vs.

(** The region of a condition of the problem, by name (every name used
    below is a key of the dictionary). *)
Definition region (name : string) : Span :=
  from_option location [] (conditions Stokes !! name).

(** The inflow profile [2 * (1 - y^2)], and the network of the example
    scenario that computes it for [ux] with [uy] and [p] constantly zero. *)
Definition parabola : graph :=
  Mul (Const 2) (Sub (Const 1) (Pow (Leaf "y") 2)).

Definition poiseuille : LabelTensor :=
  mkLabelTensor [parabola; Const 0; Const 0] ["ux"; "uy"; "p"].

(** A network with unit horizontal velocity. *)
Definition plug_flow : LabelTensor :=
  mkLabelTensor [Const 1; Const 0; Const 0] ["ux"; "uy"; "p"].

Definition at_xy (x y : Q) : point :=
  fun l => if String.eqb l "x" then x else if String.eqb l "y" then y else 0.

Definition identity_activation : nat -> Q -> Q := fun _ v => v.

(** Graphs without activation nodes compute polynomials of the
    coordinates. *)
Fixpoint polynomial (g : graph) : bool :=
  match g with
  | Const _ | Leaf _ => true
  | Neg g | Pow g _ => polynomial g
  | Add g h | Sub g h | Mul g h => polynomial g && polynomial h
  | Act _ _ => false
  end.

(** The point moved by [t] along coordinate [l]. *)
Definition shift (pt : point) (l : string) (t : Q) : point :=
  fun l' => if String.eqb l l' then pt l' + t else pt l'.

Definition bounded (r : Q -> Q) : Prop :=
  exists M, forall t, -1 <= t /\ t <= 1 -> - M <= r t /\ r t <= M.

(** [F] has value [f0] and slope [f1] at [0]: the remainder is of second
    order. *)
Definition expands (F : Q -> Q) (f0 f1 : Q) : Prop :=
  exists r, bounded r /\ forall t, F t == f0 + t * f1 + t * t * r t.

(** ** Vocabulary of the further properties *)

(** The residual functions of a condition, one or several, as a list. *)
Definition functions_list (f : functions) : list residual :=
  match f with
  | Single f => [f]
  | Several fs => fs
  end.

(** The output fields each residual function extracts. *)
Definition reads (n : residual_name) : list string :=
  match n with
  | Momentum => ["ux"; "uy"; "p"]
  | Continuity | Wall => ["ux"; "uy"]
  | Inlet => ["ux"]
  | Outlet => ["p"]
  end.

(** The output [a * out1 + b * out2] of two networks with the same
    labels. *)
Definition lincomb (a b : Q) (out1 out2 : LabelTensor) : LabelTensor :=
  mkLabelTensor
    (zip_with (fun g h => Add (Mul (Const a) g) (Mul (Const b) h))
       (tensor out1) (tensor out2))
    (labels out1).

(** The pressure [4 * (2 - x)], which falls to zero at the outlet, and the
    channel flow it drives. *)
Definition pressure_drop : graph := Mul (Const 4) (Sub (Const 2) (Leaf "x")).

Definition channel_flow : LabelTensor :=
  mkLabelTensor [parabola; Const 0; pressure_drop] ["ux"; "uy"; "p"].

(** The network of the scenario with its fields in another order and one
    more field, and with a constant added to each field. *)
Definition shuffled_flow : LabelTensor :=
  mkLabelTensor [Const 0; parabola; Const 7; Const 0] ["p"; "ux"; "T"; "uy"].

Definition shifted_flow : LabelTensor :=
  mkLabelTensor
    [Add parabola (Const 1); Add (Const 0) (Const 2); Add (Const 0) (Const 3)]
    ["ux"; "uy"; "p"].

(** ** Extraction of columns *)

Lemma extract_one (t : LabelTensor) (l : string) (g : graph) :
  column t l = Some g -> extract t [l] = Some (mkLabelTensor [g] [l]).
Proof. intros H. unfold extract. cbn. rewrite H. reflexivity. Qed.

Lemma extract_two (t : LabelTensor) (l l' : string) (g g' : graph) :
  column t l = Some g -> column t l' = Some g' ->
  extract t [l; l'] = Some (mkLabelTensor [g; g'] [l; l']).
Proof.
  intros H H'. unfold extract. cbn. rewrite H. cbn. rewrite H'. reflexivity.
Qed.

Lemma vanishes_one (v : Q) : vanishes [v] <-> v == 0.
Proof.
  unfold vanishes. split.
  - intros H. inversion H; assumption.
  - intros H. constructor; [assumption | constructor].
Qed.

Lemma vanishes_two (v w : Q) : vanishes [v; w] <-> v == 0 /\ w == 0.
Proof.
  unfold vanishes. split.
  - intros H. inversion H as [|? ? Hv H']. inversion H'. split; assumption.
  - intros [Hv Hw]. repeat constructor; assumption.
Qed.

(** ** The model at work *)

Example column_of_poiseuille : column poiseuille "uy" = Some (Const 0).
Proof. reflexivity. Qed.

Example extract_unknown_field : extract poiseuille ["T"] = None.
Proof. reflexivity. Qed.

Example slope_of_parabola (sigma : nat -> Q -> Q) (pt : point) :
  eval sigma pt (D "y" parabola) == - 4 * pt "y" /\
  eval sigma pt (D "x" parabola) == 0.
Proof.
  split; cbn -[Qeq];
    change (Z.of_nat 1) with 1%Z; change (Z.of_nat 2) with 2%Z;
    change (inject_Z 2) with 2; ring.
Qed.

Example inlet_of_plug_flow :
  option_map (values identity_activation (at_xy (-2) (1#2))) (inlet xy plug_flow)
  = Some [1 - 2 * (1 - (1#2) ^ 2)].
Proof. reflexivity. Qed.

(** With a third coordinate the two Laplacians and the three components
    of the pressure gradient do not add up: a shape error. *)
Example momentum_in_three_dimensions :
  momentum (coordinates ["x"; "y"; "z"]) poiseuille = None.
Proof. reflexivity. Qed.

(** ** The residual functions *)

Section Columns.
Variables (inp out : LabelTensor) (ux uy p : graph).
Hypothesis Hux : column out "ux" = Some ux.
Hypothesis Huy : column out "uy" = Some uy.
Hypothesis Hp : column out "p" = Some p.

Lemma wall_columns :
  wall inp out = Some [Sub ux (Const 0); Sub uy (Const 0)].
Proof. unfold wall. rewrite (extract_two _ _ _ _ _ Hux Huy). reflexivity. Qed.

Lemma outlet_columns : outlet inp out = Some [Sub p (Const 0)].
Proof. unfold outlet. rewrite (extract_one _ _ _ Hp). reflexivity. Qed.

Lemma inlet_columns :
  column inp "y" = Some (Leaf "y") ->
  inlet inp out = Some [Sub ux (Mul (Const 2) (Sub (Const 1) (Pow (Leaf "y") 2)))].
Proof.
  intros Hy. unfold inlet.
  rewrite (extract_one _ _ _ Hy), (extract_one _ _ _ Hux). reflexivity.
Qed.

Hypothesis Hxy : labels inp = ["x"; "y"].

Lemma continuity_columns :
  continuity inp out = Some [Add (D "x" ux) (D "y" uy)].
Proof.
  unfold continuity. rewrite (extract_two _ _ _ _ _ Hux Huy).
  unfold div. cbn. rewrite Hxy. reflexivity.
Qed.

Lemma momentum_columns :
  momentum inp out =
  Some [Add (Neg (Add (D "x" (D "x" ux)) (D "y" (D "y" ux)))) (D "x" p);
        Add (Neg (Add (D "x" (D "x" uy)) (D "y" (D "y" uy)))) (D "y" p)].
Proof.
  unfold momentum.
  rewrite (extract_one _ _ _ Hux), (extract_one _ _ _ Huy), (extract_one _ _ _ Hp).
  unfold nabla, grad, div. cbn. rewrite Hxy. reflexivity.
Qed.
End Columns.

(** C1. On an input with the coordinates [x] and [y] and an output with the
    fields [ux], [uy] and [p], [momentum] returns two columns: minus the
    Laplacian of [ux] plus the [x]-derivative of [p], and minus the
    Laplacian of [uy] plus the [y]-derivative of [p]. *)
Theorem momentum_residual (inp out : LabelTensor) (ux uy p : graph) :
  labels inp = ["x"; "y"] ->
  column out "ux" = Some ux -> column out "uy" = Some uy -> column out "p" = Some p ->
  exists r, momentum inp out = Some r /\
    forall sigma pt, values sigma pt r =
      zip_with Qplus
        (map Qopp [laplacian sigma ux pt; laplacian sigma uy pt])
        (gradient sigma p pt).
Proof.
  intros Hl Hux Huy Hp. eexists. split.
  - apply momentum_columns; eassumption.
  - intros sigma pt. reflexivity.
Qed.

Lemma momentum_residual_witness :
  exists r, momentum xy poiseuille = Some r /\
    forall sigma pt, values sigma pt r =
      zip_with Qplus
        (map Qopp [laplacian sigma parabola pt;
                   laplacian sigma (Const 0) pt])
        (gradient sigma (Const 0) pt).
Proof.
  apply (momentum_residual xy poiseuille); reflexivity.
Defined.

(** C3, as stated, fails: on the top wall, for the network with velocity
    [(1, 0)], [wall] evaluates to [(1, 0)], the velocity itself, not to its
    negation [(-1, 0)]. *)
Lemma wall_is_not_negated_velocity :
  column plug_flow "ux" = Some (Const 1) /\
  column plug_flow "uy" = Some (Const 0) /\
  contains (region "gamma_top") (at_xy 0 1) /\
  exists r, wall xy plug_flow = Some r /\
    Forall2 Qeq (values identity_activation (at_xy 0 1) r) [1; 0] /\
    ~ Forall2 Qeq (values identity_activation (at_xy 0 1) r)
        (map Qopp (values identity_activation (at_xy 0 1) [Const 1; Const 0])).
Proof.
  split; [reflexivity|]. split; [reflexivity|]. split.
  - repeat constructor; cbn; lra.
  - eexists. split; [reflexivity|]. split.
    + repeat constructor; cbn; lra.
    + cbn. intros H. inversion H as [|? ? ? ? Hv _]. lra.
Qed.

(** C3, amended.  For every input, every point and every output with the
    fields [ux] and [uy], [wall] evaluates to the velocity itself (velocity
    minus zero), and it is zero exactly when the velocity is. *)
Theorem wall_residual (sigma : nat -> Q -> Q) (inp out : LabelTensor)
    (ux uy : graph) (pt : point) :
  column out "ux" = Some ux -> column out "uy" = Some uy ->
  exists r, wall inp out = Some r /\
    Forall2 Qeq (values sigma pt r) (values sigma pt [ux; uy]) /\
    (vanishes (values sigma pt r) <-> vanishes (values sigma pt [ux; uy])).
Proof.
  intros Hux Huy. eexists. split; [apply wall_columns; eassumption|].
  cbn. split.
  - repeat constructor; lra.
  - rewrite !vanishes_two. split; intros [? ?]; split; lra.
Qed.

Lemma wall_residual_witness :
  exists r, wall xy plug_flow = Some r /\
    Forall2 Qeq (values identity_activation (at_xy 0 1) r)
      (values identity_activation (at_xy 0 1) [Const 1; Const 0]) /\
    (vanishes (values identity_activation (at_xy 0 1) r) <->
     vanishes (values identity_activation (at_xy 0 1) [Const 1; Const 0])).
Proof.
  apply (wall_residual identity_activation xy plug_flow); reflexivity.
Defined.

(** C4. When the input has its [y] coordinate in a column [y] and the
    output has a field [ux], [inlet] evaluates to [ux - 2 * (1 - y^2)] at
    every point, so it is zero exactly when [ux] equals [2 * (1 - y^2)]. *)
Theorem inlet_residual (sigma : nat -> Q -> Q) (inp out : LabelTensor)
    (ux : graph) (pt : point) :
  column inp "y" = Some (Leaf "y") -> column out "ux" = Some ux ->
  exists r, inlet inp out = Some r /\
    values sigma pt r = [eval sigma pt ux - 2 * (1 - pt "y" ^ 2)] /\
    (vanishes (values sigma pt r) <-> eval sigma pt ux == 2 * (1 - pt "y" ^ 2)).
Proof.
  intros Hy Hux. eexists. split; [apply inlet_columns; eassumption|].
  split; [reflexivity|].
  change (vanishes [eval sigma pt ux - 2 * (1 - pt "y" ^ 2)]
          <-> eval sigma pt ux == 2 * (1 - pt "y" ^ 2)).
  rewrite vanishes_one. set (v := 2 * (1 - pt "y" ^ 2)).
  split; intros H; lra.
Qed.

Lemma inlet_residual_witness :
  exists r, inlet xy poiseuille = Some r /\
    values identity_activation (at_xy (-2) (1#2)) r =
      [eval identity_activation (at_xy (-2) (1#2))
         parabola
       - 2 * (1 - at_xy (-2) (1#2) "y" ^ 2)] /\
    (vanishes (values identity_activation (at_xy (-2) (1#2)) r) <->
     eval identity_activation (at_xy (-2) (1#2))
       parabola
     == 2 * (1 - at_xy (-2) (1#2) "y" ^ 2)).
Proof.
  apply (inlet_residual identity_activation xy poiseuille); reflexivity.
Defined.

(** C5. On an input with the coordinates [x] and [y], [continuity] returns
    one column, the divergence of [(ux, uy)]; it is zero at a point exactly
    when the velocity is divergence-free there. *)
Theorem continuity_residual (inp out : LabelTensor) (ux uy : graph) :
  labels inp = ["x"; "y"] ->
  column out "ux" = Some ux -> column out "uy" = Some uy ->
  exists r, continuity inp out = Some r /\
    forall sigma pt,
      values sigma pt r = [divergence sigma ux uy pt] /\
      (vanishes (values sigma pt r) <-> divergence sigma ux uy pt == 0).
Proof.
  intros Hl Hux Huy. eexists. split; [apply continuity_columns; eassumption|].
  intros sigma pt. split; [reflexivity|]. apply vanishes_one.
Qed.

Lemma continuity_residual_witness :
  exists r, continuity xy poiseuille = Some r /\
    forall sigma pt,
      values sigma pt r =
        [divergence sigma parabola (Const 0) pt] /\
      (vanishes (values sigma pt r) <->
       divergence sigma parabola (Const 0) pt == 0).
Proof.
  apply (continuity_residual xy poiseuille); reflexivity.
Defined.

(** C6. For every input, every point and every output with a field [p],
    [outlet] evaluates to [p - 0], so it is zero exactly when [p] is. *)
Theorem outlet_residual (sigma : nat -> Q -> Q) (inp out : LabelTensor)
    (p : graph) (pt : point) :
  column out "p" = Some p ->
  exists r, outlet inp out = Some r /\
    values sigma pt r = [eval sigma pt p - 0] /\
    (vanishes (values sigma pt r) <-> eval sigma pt p == 0).
Proof.
  intros Hp. eexists. split; [apply outlet_columns; eassumption|].
  split; [reflexivity|].
  cbn. rewrite vanishes_one. split; intros H; lra.
Qed.

Lemma outlet_residual_witness :
  exists r, outlet xy plug_flow = Some r /\
    values identity_activation (at_xy 2 0) r =
      [eval identity_activation (at_xy 2 0) (Const 0) - 0] /\
    (vanishes (values identity_activation (at_xy 2 0) r) <->
     eval identity_activation (at_xy 2 0) (Const 0) == 0).
Proof.
  apply (outlet_residual identity_activation xy plug_flow); reflexivity.
Defined.

(** ** The conditions and their regions *)

Lemma conditions_cases (name : string) (c : Condition) :
  conditions Stokes !! name = Some c ->
  (name = "gamma_top" /\ c = mkCondition [("x", Range (-2) 2); ("y", Fixed 1)] (Single wall)) \/
  (name = "gamma_bot" /\ c = mkCondition [("x", Range (-2) 2); ("y", Fixed (-1))] (Single wall)) \/
  (name = "gamma_out" /\ c = mkCondition [("x", Fixed 2); ("y", Range (-1) 1)] (Single outlet)) \/
  (name = "gamma_in" /\ c = mkCondition [("x", Fixed (-2)); ("y", Range (-1) 1)] (Single inlet)) \/
  (name = "D" /\ c = mkCondition [("x", Range (-2) 2); ("y", Range (-1) 1)]
                       (Several [momentum; continuity])).
Proof.
  unfold Stokes, dict. cbn [conditions foldl fst snd]. intros H.
  repeat (apply lookup_insert_Some in H as [[<- <-] | [_ H]]; [tauto|]).
  rewrite lookup_empty in H. discriminate.
Qed.

Lemma contains_pair (s : Span) (l : string) (e : extent) (pt : point) :
  contains ((l, e) :: s) pt <-> within (pt l) e /\ contains s pt.
Proof. unfold contains. rewrite Forall_cons. reflexivity. Qed.

Lemma contains_nil (pt : point) : contains [] pt <-> True.
Proof. unfold contains. split; [trivial | constructor]. Qed.

Lemma withinb_spec (v : Q) (e : extent) : withinb v e = true <-> within v e.
Proof.
  destruct e as [lo hi|c]; cbn [withinb within].
  - rewrite andb_true_iff, !Qle_bool_iff. reflexivity.
  - apply Qeq_bool_iff.
Qed.

Lemma containsb_spec (s : Span) (pt : point) :
  containsb s pt = true <-> contains s pt.
Proof.
  unfold containsb, contains. rewrite forallb_forall, Forall_forall.
  split; intros H le Hle.
  - apply withinb_spec, H, list_elem_of_In, Hle.
  - apply withinb_spec, H, list_elem_of_In, Hle.
Qed.

Lemma contains_domain (pt : point) :
  contains (spatial_domain Stokes) pt <->
  (-2 <= pt "x" /\ pt "x" <= 2) /\ (-1 <= pt "y" /\ pt "y" <= 1).
Proof.
  cbn [spatial_domain Stokes]. rewrite !contains_pair, contains_nil. cbn. tauto.
Qed.

Lemma condition_region_bounds (name : string) (c : Condition) (pt : point) :
  conditions Stokes !! name = Some c -> contains (location c) pt ->
  (-2 <= pt "x" /\ pt "x" <= 2) /\ (-1 <= pt "y" /\ pt "y" <= 1).
Proof.
  intros Hc Hpt.
  destruct (conditions_cases _ _ Hc) as [[_ ->]|[[_ ->]|[[_ ->]|[[_ ->]|[_ ->]]]]];
    cbn [location] in Hpt; rewrite !contains_pair in Hpt; cbn in Hpt;
    destruct Hpt as (Hx & Hy & _); lra.
Qed.

(** C7. The region of every condition lies in the spatial domain: each of
    its points has [x] in [[-2, 2]] and [y] in [[-1, 1]]. *)
Theorem regions_inside_domain (name : string) (c : Condition) (pt : point) :
  conditions Stokes !! name = Some c -> contains (location c) pt ->
  contains (spatial_domain Stokes) pt /\
  (-2 <= pt "x" /\ pt "x" <= 2) /\ (-1 <= pt "y" /\ pt "y" <= 1).
Proof.
  intros Hc Hpt.
  pose proof (condition_region_bounds name c pt Hc Hpt) as Hb.
  split.
  - apply contains_domain. exact Hb.
  - exact Hb.
Qed.

Lemma regions_inside_domain_witness :
  contains (spatial_domain Stokes) (at_xy (-2) 1) /\
  (-2 <= at_xy (-2) 1 "x" /\ at_xy (-2) 1 "x" <= 2) /\
  (-1 <= at_xy (-2) 1 "y" /\ at_xy (-2) 1 "y" <= 1).
Proof.
  apply (regions_inside_domain "gamma_in"
           (mkCondition [("x", Fixed (-2)); ("y", Range (-1) 1)] (Single inlet))).
  - reflexivity.
  - repeat constructor; cbn; lra.
Defined.

(** C8. The dictionary of conditions has exactly the five keys
    [gamma_top], [gamma_bot], [gamma_out], [gamma_in] and [D], all
    different; the four boundary conditions hold one function each ([wall],
    [wall], [outlet], [inlet]) and [D] holds the list
    [[momentum; continuity]]. *)
Theorem conditions_mapping :
  dom (conditions Stokes) =
    ({["gamma_top"; "gamma_bot"; "gamma_out"; "gamma_in"; "D"]} : gset string) /\
  size (conditions Stokes) = 5%nat /\
  NoDup ["gamma_top"; "gamma_bot"; "gamma_out"; "gamma_in"; "D"] /\
  conditions Stokes !! "gamma_top" =
    Some (mkCondition [("x", Range (-2) 2); ("y", Fixed 1)] (Single wall)) /\
  conditions Stokes !! "gamma_bot" =
    Some (mkCondition [("x", Range (-2) 2); ("y", Fixed (-1))] (Single wall)) /\
  conditions Stokes !! "gamma_out" =
    Some (mkCondition [("x", Fixed 2); ("y", Range (-1) 1)] (Single outlet)) /\
  conditions Stokes !! "gamma_in" =
    Some (mkCondition [("x", Fixed (-2)); ("y", Range (-1) 1)] (Single inlet)) /\
  conditions Stokes !! "D" =
    Some (mkCondition [("x", Range (-2) 2); ("y", Range (-1) 1)]
            (Several [momentum; continuity])).
Proof.
  split; [vm_compute; reflexivity|].
  split; [vm_compute; reflexivity|].
  split; [apply NoDup_ListNoDup; repeat constructor; cbn; intuition discriminate|].
  repeat split; reflexivity.
Qed.

(** C10. The region of [D] is the spatial domain itself, boundary
    included: it contains the region of every condition, so on the walls,
    the inlet and the outlet, corners included, [momentum] and [continuity]
    apply together with the boundary residual. *)
Theorem interior_region_is_domain :
  region "D" = spatial_domain Stokes /\
  (forall pt, contains (region "D") pt <->
     (-2 <= pt "x" /\ pt "x" <= 2) /\ (-1 <= pt "y" /\ pt "y" <= 1)) /\
  function <$> conditions Stokes !! "D" = Some (Several [momentum; continuity]) /\
  (forall name c pt, conditions Stokes !! name = Some c ->
     contains (location c) pt -> contains (region "D") pt) /\
  (forall x y, (x == -2 \/ x == 2) -> (y == -1 \/ y == 1) ->
     contains (region "D") (at_xy x y) /\
     (contains (region "gamma_top") (at_xy x y) \/
      contains (region "gamma_bot") (at_xy x y)) /\
     (contains (region "gamma_in") (at_xy x y) \/
      contains (region "gamma_out") (at_xy x y))).
Proof.
  split; [reflexivity|]. split.
  { intros pt. change (region "D") with [("x", Range (-2) 2); ("y", Range (-1) 1)].
    rewrite !contains_pair, contains_nil. cbn. tauto. }
  split; [reflexivity|]. split.
  { intros name c pt Hc Hpt. change (region "D") with (spatial_domain Stokes).
    apply contains_domain. exact (condition_region_bounds name c pt Hc Hpt). }
  intros x y Hx Hy.
  change (region "D") with [("x", Range (-2) 2); ("y", Range (-1) 1)].
  change (region "gamma_top") with [("x", Range (-2) 2); ("y", Fixed 1)].
  change (region "gamma_bot") with [("x", Range (-2) 2); ("y", Fixed (-1))].
  change (region "gamma_in") with [("x", Fixed (-2)); ("y", Range (-1) 1)].
  change (region "gamma_out") with [("x", Fixed 2); ("y", Range (-1) 1)].
  rewrite !contains_pair, !contains_nil. cbn.
  destruct Hx, Hy; repeat split; try lra; (left; repeat split; lra) || (right; repeat split; lra).
Qed.

(** ** Differentiation of polynomial graphs *)

Lemma bounded_const (c : Q) : bounded (fun _ => c).
Proof. exists (c * c + 1). intros t _. nra. Qed.

Lemma bounded_id : bounded (fun t => t).
Proof. exists 1. intros t Ht. lra. Qed.

Lemma bounded_opp (f : Q -> Q) : bounded f -> bounded (fun t => - f t).
Proof. intros [M HM]. exists M. intros t Ht. specialize (HM t Ht). lra. Qed.

Lemma bounded_add (f g : Q -> Q) :
  bounded f -> bounded g -> bounded (fun t => f t + g t).
Proof.
  intros [M HM] [N HN]. exists (M + N). intros t Ht.
  specialize (HM t Ht). specialize (HN t Ht). lra.
Qed.

Lemma bounded_mul (f g : Q -> Q) :
  bounded f -> bounded g -> bounded (fun t => f t * g t).
Proof.
  intros [M HM] [N HN]. exists (M * N). intros t Ht.
  specialize (HM t Ht). specialize (HN t Ht). nra.
Qed.

Lemma expands_ext (F G : Q -> Q) (f0 f1 g0 g1 : Q) :
  (forall t, G t == F t) -> g0 == f0 -> g1 == f1 ->
  expands F f0 f1 -> expands G g0 g1.
Proof.
  intros HF H0 H1 (r & Hr & HE). exists r. split; [assumption|].
  intros t. rewrite HF, HE, H0, H1. reflexivity.
Qed.

Lemma expands_const (c : Q) : expands (fun _ => c) c 0.
Proof.
  exists (fun _ => 0). split; [apply bounded_const|]. intros t. ring.
Qed.

Lemma expands_line (a : Q) : expands (fun t => a + t) a 1.
Proof.
  exists (fun _ => 0). split; [apply bounded_const|]. intros t. ring.
Qed.

Lemma expands_opp (F : Q -> Q) (f0 f1 : Q) :
  expands F f0 f1 -> expands (fun t => - F t) (- f0) (- f1).
Proof.
  intros (r & Hr & HE). exists (fun t => - r t). split; [apply bounded_opp, Hr|].
  intros t. rewrite HE. ring.
Qed.

Lemma expands_add (F G : Q -> Q) (f0 f1 g0 g1 : Q) :
  expands F f0 f1 -> expands G g0 g1 ->
  expands (fun t => F t + G t) (f0 + g0) (f1 + g1).
Proof.
  intros (r & Hr & HF) (q & Hq & HG). exists (fun t => r t + q t).
  split; [apply bounded_add; assumption|].
  intros t. rewrite HF, HG. ring.
Qed.

Lemma expands_sub (F G : Q -> Q) (f0 f1 g0 g1 : Q) :
  expands F f0 f1 -> expands G g0 g1 ->
  expands (fun t => F t - G t) (f0 - g0) (f1 - g1).
Proof.
  intros HF HG. apply expands_opp in HG.
  eapply expands_ext; [| | | exact (expands_add _ _ _ _ _ _ HF HG)];
    intros; cbv beta; ring.
Qed.

Lemma expands_mul (F G : Q -> Q) (f0 f1 g0 g1 : Q) :
  expands F f0 f1 -> expands G g0 g1 ->
  expands (fun t => F t * G t) (f0 * g0) (f1 * g0 + f0 * g1).
Proof.
  intros (r & Hr & HF) (q & Hq & HG).
  exists (fun t => (f1 * g1 + (f0 * q t + r t * g0))
                   + (t * (f1 * q t + r t * g1) + (t * t) * (r t * q t))).
  split.
  - repeat (apply bounded_add || apply bounded_mul
            || apply bounded_id || apply bounded_const || assumption).
  - intros t. rewrite HF, HG. ring.
Qed.

Lemma Qpower_succ (q : Q) (n : nat) :
  q ^ Z.of_nat (S n) == q ^ Z.of_nat n * q.
Proof.
  rewrite Nat2Z.inj_succ. unfold Z.succ.
  rewrite Qpower_plus' by lia. rewrite Qpower_1_r. reflexivity.
Qed.

Lemma expands_pow (F : Q -> Q) (f0 f1 : Q) (n : nat) :
  expands F f0 f1 ->
  expands (fun t => F t ^ Z.of_nat n) (f0 ^ Z.of_nat n)
          (inject_Z (Z.of_nat n) * f0 ^ Z.of_nat (Nat.pred n) * f1).
Proof.
  intros HF. induction n as [|n IH].
  - eapply expands_ext; [| | | exact (expands_const 1)].
    + intros t. reflexivity.
    + reflexivity.
    + change (inject_Z (Z.of_nat 0)) with 0. ring.
  - eapply expands_ext; [| | | exact (expands_mul _ _ _ _ _ _ IH HF)].
    + intros t. cbv beta. apply Qpower_succ.
    + apply Qpower_succ.
    + cbn [Nat.pred]. destruct n as [|n].
      * change (inject_Z (Z.of_nat 1)) with 1. change (inject_Z (Z.of_nat 0)) with 0.
        change (f0 ^ Z.of_nat 0) with 1. ring.
      * cbn [Nat.pred]. rewrite (Qpower_succ f0 n).
        rewrite !Nat2Z.inj_succ. unfold Z.succ. rewrite !inject_Z_plus. 
        change (inject_Z 1) with 1. ring.
Qed.

Lemma shift_same (pt : point) (l : string) (t : Q) : shift pt l t l = pt l + t.
Proof. unfold shift. rewrite String.eqb_refl. reflexivity. Qed.

Lemma shift_other (pt : point) (l l' : string) (t : Q) :
  l <> l' -> shift pt l t l' = pt l'.
Proof. intros H. unfold shift. apply String.eqb_neq in H. rewrite H. reflexivity. Qed.

(** Along every coordinate, the value of a polynomial graph at a moved
    point is its value, plus the move times the value of [D], plus a term
    of second order: [D] is the derivative. *)
Lemma eval_shift_expands (sigma : nat -> Q -> Q) (pt : point) (l : string) (g : graph) :
  polynomial g = true ->
  expands (fun t => eval sigma (shift pt l t) g)
          (eval sigma pt g) (eval sigma pt (D l g)).
Proof.
  induction g as [c|l'|g IH|g IHg h IHh|g IHg h IHh|g IHg h IHh|g IH n|k g IH];
    cbn [polynomial eval D]; intros Hp.
  - apply expands_const.
  - destruct (String.eqb_spec l l') as [<-|Hne].
    + eapply expands_ext; [| | | exact (expands_line (pt l))].
      * intros t. rewrite shift_same. reflexivity.
      * reflexivity.
      * reflexivity.
    + eapply expands_ext; [| | | exact (expands_const (pt l'))].
      * intros t. rewrite shift_other by assumption. reflexivity.
      * reflexivity.
      * reflexivity.
  - apply expands_opp. auto.
  - apply andb_true_iff in Hp as [? ?]. apply expands_add; auto.
  - apply andb_true_iff in Hp as [? ?]. apply expands_sub; auto.
  - apply andb_true_iff in Hp as [? ?].
    apply (expands_mul _ _ _ _ _ _ (IHg ltac:(assumption)) (IHh ltac:(assumption))).
  - apply (expands_pow _ _ _ n (IH Hp)).
  - discriminate.
Qed.

Lemma expands_zero (F : Q -> Q) (f0 f1 : Q) :
  expands F f0 f1 -> (forall t, F t == 0) -> f1 == 0.
Proof.
  intros (r & [M HM] & HE) HF.
  assert (H0 : f0 == 0).
  { specialize (HE 0). rewrite HF in HE. lra. }
  set (d := f1 * f1 + M * M + 1).
  assert (Hd : 0 < d) by (unfold d; nra).
  assert (Hb : - d <= f1 /\ f1 <= d) by (unfold d; nra).
  assert (HdM : M * M + 1 <= d) by (unfold d; nra).
  clearbody d.
  set (t := f1 / d).
  assert (Ht : t * d == f1) by (unfold t; field; lra).
  clearbody t.
  assert (Hr : - M <= r t /\ r t <= M).
  { apply HM. split; apply (Qmult_le_r _ _ d Hd); rewrite Ht; lra. }
  specialize (HE t). rewrite HF, H0 in HE.
  set (q := r t) in *. clearbody q.
  assert (E : t * t * (d + q) == 0).
  { assert (X : t * t * (d + q) == t * (t * d) + t * t * q) by ring.
    rewrite X, Ht. lra. }
  assert (Hp : 0 < d + q) by nra.
  assert (Hz : t == 0).
  { apply Qmult_integral in E as [E | E]; [| lra].
    apply Qmult_integral in E as [E | E]; exact E. }
  rewrite <- Ht, Hz. ring.
Qed.

(** Two polynomial graphs with the same values at every point have
    derivatives with the same values at every point. *)
Lemma D_extensional (sigma : nat -> Q -> Q) (l : string) (g h : graph) :
  polynomial g = true -> polynomial h = true ->
  (forall pt, eval sigma pt g == eval sigma pt h) ->
  forall pt, eval sigma pt (D l g) == eval sigma pt (D l h).
Proof.
  intros Hg Hh Heq pt.
  pose proof (expands_sub _ _ _ _ _ _
                (eval_shift_expands sigma pt l g Hg)
                (eval_shift_expands sigma pt l h Hh)) as HE.
  apply expands_zero in HE.
  - lra.
  - intros t. cbv beta. rewrite Heq. ring.
Qed.

Lemma polynomial_D (l : string) (g : graph) :
  polynomial g = true -> polynomial (D l g) = true.
Proof.
  induction g as [c|l'|g IH|g IHg h IHh|g IHg h IHh|g IHg h IHh|g IH n|k g IH];
    cbn [polynomial D]; intros Hp; try discriminate; auto.
  - destruct (String.eqb l l'); reflexivity.
  - apply andb_true_iff in Hp as [? ?]. apply andb_true_iff. auto.
  - apply andb_true_iff in Hp as [? ?]. apply andb_true_iff. auto.
  - apply andb_true_iff in Hp as [Hg Hh].
    rewrite (IHg Hg), (IHh Hh), Hg, Hh. reflexivity.
  - rewrite (IH Hp), Hp. reflexivity.
Qed.

Lemma D2_extensional (sigma : nat -> Q -> Q) (l l' : string) (g h : graph) :
  polynomial g = true -> polynomial h = true ->
  (forall pt, eval sigma pt g == eval sigma pt h) ->
  forall pt, eval sigma pt (D l (D l' g)) == eval sigma pt (D l (D l' h)).
Proof.
  intros Hg Hh Heq. apply D_extensional.
  - apply polynomial_D, Hg.
  - apply polynomial_D, Hh.
  - apply D_extensional; assumption.
Qed.

(** ** The example scenario *)

(** C2, as stated, fails: the network of the scenario has the outputs
    [2 * (1 - y^2)], [0] and [0] at every point, the origin lies in the
    region of [D], whose functions are [momentum] and [continuity], and
    [momentum] evaluates there to [(4, 0)], which is not zero. *)
Lemma momentum_of_poiseuille_is_not_zero :
  (forall pt, Forall2 Qeq (values identity_activation pt (tensor poiseuille))
                [2 * (1 - pt "y" ^ 2); 0; 0]) /\
  labels poiseuille = ["ux"; "uy"; "p"] /\
  function <$> conditions Stokes !! "D" = Some (Several [momentum; continuity]) /\
  contains (region "D") (at_xy 0 0) /\
  exists r, momentum xy poiseuille = Some r /\
    Forall2 Qeq (values identity_activation (at_xy 0 0) r) [4; 0] /\
    ~ vanishes (values identity_activation (at_xy 0 0) r).
Proof.
  split.
  { intros pt. repeat constructor; reflexivity. }
  split; [reflexivity|]. split; [reflexivity|]. split.
  { repeat constructor; cbn; lra. }
  eexists. split; [reflexivity|]. split.
  - repeat constructor; vm_compute; reflexivity.
  - intros H. inversion H as [|? ? Hv _]. vm_compute in Hv. discriminate.
Qed.

Lemma contains_top (pt : point) :
  contains (region "gamma_top") pt <-> (-2 <= pt "x" /\ pt "x" <= 2) /\ pt "y" == 1.
Proof.
  change (region "gamma_top") with [("x", Range (-2) 2); ("y", Fixed 1)].
  rewrite !contains_pair, contains_nil. cbn. tauto.
Qed.

Lemma contains_bot (pt : point) :
  contains (region "gamma_bot") pt <-> (-2 <= pt "x" /\ pt "x" <= 2) /\ pt "y" == -1.
Proof.
  change (region "gamma_bot") with [("x", Range (-2) 2); ("y", Fixed (-1))].
  rewrite !contains_pair, contains_nil. cbn. tauto.
Qed.

Ltac fold_numerals :=
  change (Z.of_nat 0) with 0%Z; change (Z.of_nat 1) with 1%Z;
  change (Z.of_nat 2) with 2%Z;
  change (inject_Z 1) with 1; change (inject_Z 2) with 2.

Section Scenario.
Variable sigma : nat -> Q -> Q.
Variables (out : LabelTensor) (ux uy p : graph).
Hypothesis Pux : polynomial ux = true.
Hypothesis Puy : polynomial uy = true.
Hypothesis Pp : polynomial p = true.
Hypothesis Eux : forall pt, eval sigma pt ux == 2 * (1 - pt "y" ^ 2).
Hypothesis Euy : forall pt, eval sigma pt uy == 0.
Hypothesis Ep : forall pt, eval sigma pt p == 0.

Lemma scenario_ux (l : string) (pt : point) :
  eval sigma pt (D l ux) == eval sigma pt (D l parabola) /\
  eval sigma pt (D l (D l ux)) == eval sigma pt (D l (D l parabola)).
Proof.
  split.
  - apply D_extensional; [exact Pux | reflexivity | exact Eux].
  - apply D2_extensional; [exact Pux | reflexivity | exact Eux].
Qed.

Lemma scenario_zero (u : graph) (l : string) (pt : point) :
  polynomial u = true -> (forall pt, eval sigma pt u == 0) ->
  eval sigma pt (D l u) == 0 /\ eval sigma pt (D l (D l u)) == 0.
Proof.
  intros Pu Eu. split.
  - apply (D_extensional sigma l u (Const 0) Pu eq_refl Eu).
  - apply (D2_extensional sigma l l u (Const 0) Pu eq_refl Eu).
Qed.

Lemma scenario_continuity (pt : point) :
  eval sigma pt (Add (D "x" ux) (D "y" uy)) == 0.
Proof.
  cbn [eval].
  rewrite (proj1 (scenario_ux "x" pt)), (proj1 (scenario_zero uy "y" pt Puy Euy)).
  cbn -[Qeq]; fold_numerals; ring.
Qed.

Lemma scenario_momentum (pt : point) :
  eval sigma pt (Add (Neg (Add (D "x" (D "x" ux)) (D "y" (D "y" ux)))) (D "x" p)) == 4 /\
  eval sigma pt (Add (Neg (Add (D "x" (D "x" uy)) (D "y" (D "y" uy)))) (D "y" p)) == 0.
Proof.
  cbn [eval].
  rewrite (proj2 (scenario_ux "x" pt)), (proj2 (scenario_ux "y" pt)).
  rewrite (proj2 (scenario_zero uy "x" pt Puy Euy)), (proj2 (scenario_zero uy "y" pt Puy Euy)).
  rewrite (proj1 (scenario_zero p "x" pt Pp Ep)), (proj1 (scenario_zero p "y" pt Pp Ep)).
  split; cbn -[Qeq]; fold_numerals; ring.
Qed.
End Scenario.

(** C2, amended.  For a polynomial network whose outputs are exactly
    [ux = 2 * (1 - y^2)], [uy = 0] and [p = 0] at every point, the residuals
    of [wall] on both walls, of [outlet] on the outlet, of [inlet] on the
    inlet and of [continuity] on [D] are zero at every point of their
    regions, and the residual of [momentum] is [(4, 0)] at every point of
    [D]. *)
Theorem poiseuille_residuals (sigma : nat -> Q -> Q) (out : LabelTensor)
    (ux uy p : graph) (pt : point) :
  column out "ux" = Some ux -> column out "uy" = Some uy -> column out "p" = Some p ->
  polynomial ux = true -> polynomial uy = true -> polynomial p = true ->
  (forall pt, eval sigma pt ux == 2 * (1 - pt "y" ^ 2)) ->
  (forall pt, eval sigma pt uy == 0) ->
  (forall pt, eval sigma pt p == 0) ->
  (contains (region "gamma_top") pt \/ contains (region "gamma_bot") pt ->
   exists r, wall xy out = Some r /\ vanishes (values sigma pt r)) /\
  (contains (region "gamma_out") pt ->
   exists r, outlet xy out = Some r /\ vanishes (values sigma pt r)) /\
  (contains (region "gamma_in") pt ->
   exists r, inlet xy out = Some r /\ vanishes (values sigma pt r)) /\
  (contains (region "D") pt ->
   (exists r, continuity xy out = Some r /\ vanishes (values sigma pt r)) /\
   (exists r, momentum xy out = Some r /\ Forall2 Qeq (values sigma pt r) [4; 0])).
Proof.
  intros Hux Huy Hp Pux Puy Pp Eux Euy Ep.
  split; [|split; [|split]].
  - intros Hwall. eexists. split; [apply wall_columns; eassumption|].
    cbn -[Qeq]. apply vanishes_two. rewrite Eux, Euy.
    assert (Hy : pt "y" == 1 \/ pt "y" == -1).
    { destruct Hwall as [H|H]; [apply contains_top in H | apply contains_bot in H]; tauto. }
    destruct Hy as [-> | ->]; split; reflexivity.
  - intros _. eexists. split; [apply outlet_columns; eassumption|].
    cbn -[Qeq]. apply vanishes_one. rewrite Ep. reflexivity.
  - intros _. eexists. split; [apply inlet_columns; [eassumption | reflexivity]|].
    cbn -[Qeq]. apply vanishes_one. rewrite Eux. fold_numerals. ring.
  - intros _. split.
    + eexists. split; [apply continuity_columns; [eassumption .. | reflexivity]|].
      apply vanishes_one. apply (scenario_continuity sigma ux uy); assumption.
    + eexists. split; [apply momentum_columns; [eassumption .. | reflexivity]|].
      destruct (scenario_momentum sigma ux uy p Pux Puy Pp Eux Euy Ep pt) as [H4 H0].
      repeat constructor; assumption.
Qed.

Lemma poiseuille_residuals_witness :
  (contains (region "gamma_top") (at_xy 0 1) \/ contains (region "gamma_bot") (at_xy 0 1) ->
   exists r, wall xy poiseuille = Some r /\
             vanishes (values identity_activation (at_xy 0 1) r)) /\
  (contains (region "gamma_out") (at_xy 0 1) ->
   exists r, outlet xy poiseuille = Some r /\
             vanishes (values identity_activation (at_xy 0 1) r)) /\
  (contains (region "gamma_in") (at_xy 0 1) ->
   exists r, inlet xy poiseuille = Some r /\
             vanishes (values identity_activation (at_xy 0 1) r)) /\
  (contains (region "D") (at_xy 0 1) ->
   (exists r, continuity xy poiseuille = Some r /\
              vanishes (values identity_activation (at_xy 0 1) r)) /\
   (exists r, momentum xy poiseuille = Some r /\
              Forall2 Qeq (values identity_activation (at_xy 0 1) r) [4; 0])).
Proof.
  apply (poiseuille_residuals identity_activation poiseuille parabola (Const 0) (Const 0));
    try reflexivity; intros pt; reflexivity.
Defined.

(** ** Evaluation on the store *)

Lemma extends_refl (s : store.state) : store.extends s s.
Proof. split; [reflexivity | exists []; symmetry; apply app_nil_r]. Qed.

Lemma extends_trans (s1 s2 s3 : store.state) :
  store.extends s1 s2 -> store.extends s2 s3 -> store.extends s1 s3.
Proof.
  intros [P1 [f1 H1]] [P2 [f2 H2]]. split; [congruence|].
  exists (f1 ++ f2). rewrite H2, H1, app_assoc. reflexivity.
Qed.

Lemma extends_lookup (s s' : store.state) (r : store.ref) (x : store.object) :
  store.extends s s' -> store.heap s !! r = Some x -> store.heap s' !! r = Some x.
Proof. intros [_ [f ->]] H. apply lookup_app_l_Some, H. Qed.

Lemma bind_run {A B : Type} (m : store.M A) (k : A -> store.M B) (s : store.state) :
  (m ≫= k) s = match m s with (Some a, s') => k a s' | (None, s') => (None, s') end.
Proof. reflexivity. Qed.

Lemma mapM_load (s : store.state) (args : list store.ref) (xs : list store.object) :
  Forall2 (fun r x => store.heap s !! r = Some x) args xs ->
  mapM store.load args s = (Some xs, s).
Proof.
  induction 1 as [|r x args xs Hr _ IH]; [reflexivity|].
  cbn [mapM]. rewrite bind_run. unfold store.load at 1. cbn [fst snd]. rewrite Hr.
  rewrite bind_run, IH. reflexivity.
Qed.

Lemma reference_well_behaved : store.well_behaved store.reference.
Proof.
  intros o args xs s Hxs. unfold store.reference.
  rewrite bind_run, (mapM_load s args xs Hxs), bind_run. unfold store.lift.
  destruct (store.denote o xs) as [y|].
  - eexists. split; [|eexists; split; [reflexivity|]].
    + split; [reflexivity | eexists; reflexivity].
    + cbn. apply list_lookup_middle. reflexivity.
  - exists s. split; [apply extends_refl | reflexivity].
Qed.

Section Calls.
Variable call : store.operation -> list store.ref -> store.M store.ref.
Hypothesis Hcall : store.well_behaved call.
Variables (o : store.operation) (args : list store.ref) (xs : list store.object).
Variable s : store.state.
Hypothesis Hxs : Forall2 (fun r x => store.heap s !! r = Some x) args xs.

Lemma agrees_call (k : store.ref -> store.M store.ref) (v : option Tensor) :
  (forall r s' y, store.denote o xs = Some y -> store.extends s s' ->
     store.heap s' !! r = Some y -> store.agrees (k r s') s' v) ->
  (store.denote o xs = None -> v = None) ->
  store.agrees ((call o args ≫= k) s) s v.
Proof.
  intros Hk Hnone. rewrite bind_run.
  destruct (Hcall o args xs s Hxs) as (s' & Hext & H).
  destruct (store.denote o xs) as [y|].
  - destruct H as (r & -> & Hr).
    destruct (Hk r s' y eq_refl Hext Hr) as [Hext' Hv].
    split; [exact (extends_trans _ _ _ Hext Hext') | exact Hv].
  - rewrite H, (Hnone eq_refl). split; [exact Hext | exact I].
Qed.

Lemma agrees_last :
  store.agrees (call o args s) s (store.data <$> store.denote o xs).
Proof.
  destruct (Hcall o args xs s Hxs) as (s' & Hext & H).
  destruct (store.denote o xs) as [y|].
  - destruct H as (r & -> & Hr). split; [exact Hext|]. cbn. rewrite Hr. reflexivity.
  - rewrite H. split; [exact Hext | exact I].
Qed.
End Calls.

Ltac find_objects := repeat constructor; eassumption.

Ltac carry E :=
  repeat match goal with
         | H : store.heap ?s0 !! _ = Some _ |- _ =>
             lazymatch type of E with
             | store.extends s0 _ => apply (extends_lookup _ _ _ _ E) in H
             end
         end;
  clear E.

Ltac settle Hd :=
  cbn [store.denote store.as_labelled store.data tensor mbind option_bind] in Hd;
  lazymatch type of Hd with
  | mbind _ ?e = _ =>
      destruct e eqn:?; cbn [mbind option_bind] in Hd; cbn [mbind option_bind];
      try discriminate Hd
  | _ => idtac
  end;
  first [ injection Hd as <- | reflexivity | discriminate Hd ].

Ltac call_step Hcall :=
  let r := fresh "r" in let s' := fresh "s" in let y := fresh "y" in
  let Hd := fresh "Hd" in let E := fresh "E" in let Hr := fresh "Hr" in
  eapply (agrees_call _ Hcall);
  [ find_objects
  | intros r s' y Hd E Hr; carry E; settle Hd
  | intros Hd; settle Hd ].

Ltac call_last Hcall :=
  let L := fresh "L" in
  match goal with
  | |- store.agrees (?call ?o ?args ?s) ?s _ =>
      eassert (L : store.agrees (call o args s) s _)
        by (eapply (agrees_last _ Hcall); find_objects)
  end;
  cbn [store.denote store.as_labelled store.data tensor mbind option_bind] in L;
  try match type of L with
      | context [mbind _ ?e] => destruct e
      end;
  exact L.

(** With a library without side effects, each residual function ends on
    the store as the pure function says, in a state that extends the
    initial one, also when it raises. *)
Lemma run_agrees (call : store.operation -> list store.ref -> store.M store.ref)
    (n : residual_name) (s : store.state) (i o : store.ref) (ti to : LabelTensor) :
  store.well_behaved call ->
  store.heap s !! i = Some (store.Labelled ti) ->
  store.heap s !! o = Some (store.Labelled to) ->
  store.agrees (run call n i o s) s (pure n ti to).
Proof.
  intros Hcall Hi Ho. destruct n; cbn [run pure].
  - unfold store.momentum, momentum, store.extract, store.nabla, store.LabelTensor,
      store.hstack, store.neg, store.grad, store.add. cbv zeta.
    do 10 call_step Hcall. call_last Hcall.
  - unfold store.continuity, continuity, store.extract, store.div.
    call_step Hcall. call_last Hcall.
  - unfold store.inlet, inlet, store.extract, store.pow_scalar, store.rsub_scalar,
      store.rmul_scalar, store.sub. cbv zeta.
    do 5 call_step Hcall. call_last Hcall.
  - unfold store.outlet, outlet, store.extract, store.sub_scalar. cbv zeta.
    call_step Hcall. call_last Hcall.
  - unfold store.wall, wall, store.extract, store.sub_scalar. cbv zeta.
    call_step Hcall. call_last Hcall.
Qed.

(** C9. Let the operations of [torch] and [pina] be without side effects.
    Evaluate a residual function twice, from any two states, on references
    holding the same input and the same output.  Both evaluations raise or
    both return a tensor with the same columns, those the function gives
    on that input and output; and each evaluation, raising or not, leaves
    the problem record and every object of its initial heap as they were,
    only allocating new tensors. *)
Theorem residuals_are_pure
    (call : store.operation -> list store.ref -> store.M store.ref)
    (n : residual_name) (s1 s2 : store.state)
    (i1 o1 i2 o2 : store.ref) (ti to : LabelTensor) :
  store.well_behaved call ->
  store.heap s1 !! i1 = Some (store.Labelled ti) ->
  store.heap s1 !! o1 = Some (store.Labelled to) ->
  store.heap s2 !! i2 = Some (store.Labelled ti) ->
  store.heap s2 !! o2 = Some (store.Labelled to) ->
  exists v1 s1' v2 s2',
    run call n i1 o1 s1 = (v1, s1') /\ run call n i2 o2 s2 = (v2, s2') /\
    (store.problem s1' = store.problem s1 /\
     exists fresh, store.heap s1' = store.heap s1 ++ fresh) /\
    (store.problem s2' = store.problem s2 /\
     exists fresh, store.heap s2' = store.heap s2 ++ fresh) /\
    match v1, v2 with
    | Some r1, Some r2 =>
        exists t, store.data <$> store.heap s1' !! r1 = Some t /\
                  store.data <$> store.heap s2' !! r2 = Some t /\
                  pure n ti to = Some t
    | None, None => pure n ti to = None
    | _, _ => False
    end.
Proof.
  intros Hcall Hi1 Ho1 Hi2 Ho2.
  destruct (run_agrees call n s1 i1 o1 ti to Hcall Hi1 Ho1) as [E1 H1].
  destruct (run_agrees call n s2 i2 o2 ti to Hcall Hi2 Ho2) as [E2 H2].
  destruct (run call n i1 o1 s1) as [v1 s1'], (run call n i2 o2 s2) as [v2 s2'].
  cbn [fst snd] in *. exists v1, s1', v2, s2'.
  split; [reflexivity|]. split; [reflexivity|].
  split; [exact E1|]. split; [exact E2|].
  destruct (pure n ti to) as [t|], v1 as [r1|], v2 as [r2|]; try contradiction.
  - exists t. auto.
  - reflexivity.
Qed.

Lemma residuals_are_pure_witness :
  exists v1 s1' v2 s2',
    run store.reference Momentum 0%nat 1%nat
      (store.mkState Stokes [store.Labelled xy; store.Labelled poiseuille])
      = (v1, s1') /\
    run store.reference Momentum 2%nat 1%nat
      (store.mkState Stokes
         [store.Labelled plug_flow; store.Labelled poiseuille; store.Labelled xy])
      = (v2, s2') /\
    (store.problem s1' = Stokes /\
     exists fresh, store.heap s1' =
                   [store.Labelled xy; store.Labelled poiseuille] ++ fresh) /\
    (store.problem s2' = Stokes /\
     exists fresh, store.heap s2' =
                   [store.Labelled plug_flow; store.Labelled poiseuille;
                    store.Labelled xy] ++ fresh) /\
    match v1, v2 with
    | Some r1, Some r2 =>
        exists t, store.data <$> store.heap s1' !! r1 = Some t /\
                  store.data <$> store.heap s2' !! r2 = Some t /\
                  pure Momentum xy poiseuille = Some t
    | None, None => pure Momentum xy poiseuille = None
    | _, _ => False
    end.
Proof.
  apply (residuals_are_pure store.reference Momentum
           (store.mkState Stokes [store.Labelled xy; store.Labelled poiseuille])
           (store.mkState Stokes
              [store.Labelled plug_flow; store.Labelled poiseuille; store.Labelled xy])
           0%nat 1%nat 2%nat 1%nat xy poiseuille).
  - exact reference_well_behaved.
  - reflexivity.
  - reflexivity.
  - reflexivity.
  - reflexivity.
Defined.

(** The property is one of the bodies, not of the store: the variant of
    [wall] that subtracts in place returns the same columns and overwrites
    its argument, and an assignment to the class changes the problem
    record. *)
Example wall_in_place_overwrites :
  let s := store.mkState Stokes [store.Labelled xy; store.Labelled plug_flow] in
  exists r s',
    store.wall_in_place store.reference 0%nat 1%nat s = (Some r, s') /\
    store.data <$> store.heap s' !! r = wall xy plug_flow /\
    store.heap s' !! 1%nat <> store.heap s !! 1%nat /\
    ~ store.extends s s'.
Proof.
  cbv zeta. do 2 eexists. split; [reflexivity|]. split; [reflexivity|]. split.
  - cbn. discriminate.
  - intros [_ [fresh H]]. cbn in H. discriminate H.
Qed.

Example assign_overwrites (s : store.state) (p : SpatialProblem) :
  p <> store.problem s -> ~ store.extends s (store.assign p s).2.
Proof. intros Hp [H _]. apply Hp. exact H. Qed.

(** * Further properties of the problem *)

(** ** Which fields a residual function needs *)

Lemma extract_is_Some (t : LabelTensor) (ls : list string) :
  is_Some (extract t ls) <-> Forall (fun l => is_Some (column t l)) ls.
Proof.
  unfold extract. rewrite <- (mapM_is_Some (column t) ls).
  destruct (mapM (column t) ls); cbn; split; intros [? H]; try discriminate; eauto.
Qed.

Lemma extract_ext (t t' : LabelTensor) (ls : list string) :
  Forall (fun l => column t l = column t' l) ls -> extract t ls = extract t' ls.
Proof.
  intros H. unfold extract. rewrite (Forall_mapM_ext _ _ _ H). reflexivity.
Qed.

Lemma bind_is_Some {A B : Type} (o : option A) (k : A -> option B) :
  is_Some (o ≫= k) -> is_Some o.
Proof. destruct o; cbn; [eauto | intros [? ?]; discriminate]. Qed.

Lemma declared_columns (out : LabelTensor) :
  labels out = output_variables Stokes -> length (tensor out) = length (labels out) ->
  exists ux uy p, column out "ux" = Some ux /\ column out "uy" = Some uy /\
                  column out "p" = Some p.
Proof.
  destruct out as [t ls]. cbn [labels tensor output_variables Stokes].
  intros -> Hlen. destruct t as [|ux [|uy [|p [|? ?]]]]; try discriminate.
  exists ux, uy, p. repeat split; reflexivity.
Qed.

Lemma region_keys (name : string) (c : Condition) :
  conditions Stokes !! name = Some c -> Permutation (map fst (location c)) ["x"; "y"].
Proof.
  intros Hc.
  destruct (conditions_cases _ _ Hc) as [[_ ->]|[[_ ->]|[[_ ->]|[[_ ->]|[_ ->]]]]];
    reflexivity.
Qed.

Lemma two_coordinates (ls : list string) :
  Permutation ls ["x"; "y"] -> ls = ["x"; "y"] \/ ls = ["y"; "x"].
Proof. intros H. symmetry in H. apply Permutation_length_2_inv in H. exact H. Qed.

Lemma equations_on_two_coordinates (a b : string) (out : LabelTensor)
    (ux uy p : graph) :
  column out "ux" = Some ux -> column out "uy" = Some uy -> column out "p" = Some p ->
  (exists r, momentum (coordinates [a; b]) out = Some r /\ length r = 2%nat) /\
  (exists r, continuity (coordinates [a; b]) out = Some r /\ length r = 1%nat).
Proof.
  intros Hux Huy Hp. split.
  - unfold momentum.
    rewrite (extract_one _ _ _ Hux), (extract_one _ _ _ Huy), (extract_one _ _ _ Hp).
    eexists. split; reflexivity.
  - unfold continuity. rewrite (extract_two _ _ _ _ _ Hux Huy).
    eexists. split; reflexivity.
Qed.

Lemma condition_functions (name : string) (c : Condition) (f : residual) :
  conditions Stokes !! name = Some c -> In f (functions_list (function c)) ->
  (name = "gamma_top" \/ name = "gamma_bot") /\ f = wall \/
  name = "gamma_out" /\ f = outlet \/
  name = "gamma_in" /\ f = inlet \/
  name = "D" /\ (f = momentum \/ f = continuity).
Proof.
  intros Hc Hf.
  destruct (conditions_cases _ _ Hc) as [[-> ->]|[[-> ->]|[[-> ->]|[[-> ->]|[-> ->]]]]];
    cbn in Hf; intuition (subst; auto).
Qed.

(** X1. Take any condition of the problem and any of its residual
    functions.  On an input whose columns are the variables of the
    condition's own region, in any order, and an output labelled by
    [output_variables], one column per label, the function raises no error
    and returns one or two columns: every field and coordinate the
    functions extract is declared. *)
Theorem conditions_evaluate (name : string) (c : Condition) (f : residual)
    (ls : list string) (out : LabelTensor) :
  conditions Stokes !! name = Some c -> In f (functions_list (function c)) ->
  Permutation ls (map fst (location c)) ->
  labels out = output_variables Stokes -> length (tensor out) = length (labels out) ->
  exists r, f (coordinates ls) out = Some r /\ (1 <= length r <= 2)%nat.
Proof.
  intros Hc Hf Hls Hl Hlen.
  rewrite (region_keys name c Hc) in Hls.
  destruct (declared_columns out Hl Hlen) as (ux & uy & p & Hux & Huy & Hp).
  assert (Hy : column (coordinates ls) "y" = Some (Leaf "y"))
    by (destruct (two_coordinates ls Hls) as [-> | ->]; reflexivity).
  assert (He : (exists r, momentum (coordinates ls) out = Some r /\ length r = 2%nat) /\
               (exists r, continuity (coordinates ls) out = Some r /\ length r = 1%nat))
    by (destruct (two_coordinates ls Hls) as [-> | ->];
        apply (equations_on_two_coordinates _ _ out ux uy p); assumption).
  destruct (condition_functions name c f Hc Hf)
    as [[_ ->]|[[_ ->]|[[_ ->]|[_ [-> | ->]]]]].
  - eexists. split; [apply wall_columns; eassumption | cbn; lia].
  - eexists. split; [apply outlet_columns; eassumption | cbn; lia].
  - eexists. split; [apply inlet_columns; eassumption | cbn; lia].
  - destruct He as [(r & Hr & Hw) _]. exists r. split; [exact Hr | lia].
  - destruct He as [_ (r & Hr & Hw)]. exists r. split; [exact Hr | lia].
Qed.

Lemma conditions_evaluate_witness :
  exists r, momentum (coordinates ["y"; "x"]) channel_flow = Some r /\
            (1 <= length r <= 2)%nat.
Proof.
  apply (conditions_evaluate "D"
           (mkCondition [("x", Range (-2) 2); ("y", Range (-1) 1)]
              (Several [momentum; continuity]))
           momentum ["y"; "x"] channel_flow).
  - reflexivity.
  - left. reflexivity.
  - apply perm_swap.
  - reflexivity.
  - reflexivity.
Defined.

(** X2. A residual function that returns a result has found every output
    field it extracts: [ux], [uy] and [p] for [momentum], [ux] and [uy] for
    [continuity] and [wall], [ux] for [inlet], [p] for [outlet].  With one
    of them missing the function raises. *)
Theorem residual_reads (n : residual_name) (inp out : LabelTensor) (r : Tensor) :
  pure n inp out = Some r -> Forall (fun l => is_Some (column out l)) (reads n).
Proof.
  intros Hr. assert (H : is_Some (pure n inp out)) by (rewrite Hr; eauto).
  clear Hr. revert H. destruct n; cbn [pure reads].
  - unfold momentum. intros H.
    destruct (extract out ["ux"]) as [ux|] eqn:Eux; [|destruct H; discriminate].
    cbn [mbind option_bind] in H.
    destruct (nabla (tensor ux) inp) as [lx|]; [|destruct H; discriminate].
    cbn [mbind option_bind] in H.
    destruct (LabelTensor_init lx ["x"]) as [nx|]; [|destruct H; discriminate].
    cbn [mbind option_bind] in H.
    destruct (extract out ["uy"]) as [uy|] eqn:Euy; [|destruct H; discriminate].
    cbn [mbind option_bind] in H.
    destruct (nabla (tensor uy) inp) as [ly|]; [|destruct H; discriminate].
    cbn [mbind option_bind] in H.
    destruct (LabelTensor_init ly ["y"]) as [ny|]; [|destruct H; discriminate].
    cbn [mbind option_bind] in H. cbv zeta in H.
    destruct (extract out ["p"]) as [p|] eqn:Ep; [|destruct H; discriminate].
    assert (Hux : is_Some (extract out ["ux"])) by (rewrite Eux; eauto).
    assert (Huy : is_Some (extract out ["uy"])) by (rewrite Euy; eauto).
    assert (Hp : is_Some (extract out ["p"])) by (rewrite Ep; eauto).
    apply extract_is_Some in Hux, Huy, Hp.
    inversion Hux; inversion Huy; inversion Hp; subst. repeat constructor; assumption.
  - unfold continuity. intros H. apply bind_is_Some in H. apply extract_is_Some, H.
  - unfold inlet. intros H.
    destruct (extract inp ["y"]) as [y|]; [|destruct H; discriminate].
    cbn [mbind option_bind] in H. cbv zeta in H.
    apply bind_is_Some in H. apply extract_is_Some, H.
  - unfold outlet. intros H. apply bind_is_Some in H. apply extract_is_Some, H.
  - unfold wall. intros H. apply bind_is_Some in H. apply extract_is_Some, H.
Qed.

Lemma residual_reads_witness :
  Forall (fun l => is_Some (column plug_flow l)) (reads Wall).
Proof.
  apply (residual_reads Wall xy plug_flow [Sub (Const 1) (Const 0); Sub (Const 0) (Const 0)]).
  reflexivity.
Defined.

(** X4. A residual function depends on the output only through the
    columns it extracts by name: two outputs that agree on those columns,
    whatever the order of their fields and whatever other fields they
    carry, give the same result, error or not. *)
Theorem residual_ext (n : residual_name) (inp out out' : LabelTensor) :
  Forall (fun l => column out l = column out' l) (reads n) ->
  pure n inp out = pure n inp out'.
Proof.
  intros H. destruct n; cbn [pure reads] in *.
  - unfold momentum.
    inversion H as [|? ? Hux Hr]; inversion Hr as [|? ? Huy Hr'];
      inversion Hr' as [|? ? Hp _]; subst.
    rewrite (extract_ext out out' ["ux"]), (extract_ext out out' ["uy"]),
            (extract_ext out out' ["p"]) by (repeat constructor; assumption).
    reflexivity.
  - unfold continuity. rewrite (extract_ext out out' _ H). reflexivity.
  - unfold inlet. rewrite (extract_ext out out' _ H). reflexivity.
  - unfold outlet. rewrite (extract_ext out out' _ H). reflexivity.
  - unfold wall. rewrite (extract_ext out out' _ H). reflexivity.
Qed.

Lemma residual_ext_witness :
  pure Momentum xy poiseuille = pure Momentum xy shuffled_flow.
Proof.
  apply (residual_ext Momentum xy poiseuille shuffled_flow).
  repeat constructor.
Defined.

(** ** Shapes *)

Lemma add_widths (a b : Tensor) :
  length a = 2%nat -> (3 <= length b)%nat -> add a b = None.
Proof.
  intros Ha Hb. destruct a as [|a1 [|a2 [|? ?]]]; try discriminate.
  destruct b as [|b1 [|b2 [|b3 b]]]; cbn in Hb; try lia. reflexivity.
Qed.

Lemma nabla_width (u : Tensor) (inp : LabelTensor) (r : Tensor) :
  nabla u inp = Some r -> length r = 1%nat.
Proof.
  unfold nabla, grad, div. destruct u as [|g [|? ?]]; try discriminate.
  cbn. destruct (Nat.eqb _ _); [|discriminate]. intros [= <-]. reflexivity.
Qed.

Lemma grad_width (u : Tensor) (inp g : LabelTensor) :
  grad u inp = Some g -> length (tensor g) = length (labels inp).
Proof.
  unfold grad. destruct u as [|? [|? ?]]; try discriminate.
  intros [= <-]. cbn. apply length_map.
Qed.

Lemma LabelTensor_init_tensor (x : Tensor) (ls : list string) (t : LabelTensor) :
  LabelTensor_init x ls = Some t -> tensor t = x.
Proof.
  unfold LabelTensor_init. destruct (Nat.eqb _ _); [|discriminate].
  intros [= <-]. reflexivity.
Qed.

(** X3. [momentum] stacks exactly two Laplacians, so it is tied to two
    space dimensions: on an input with three or more coordinates the
    pressure gradient has too many components to be added to them and the
    function raises, whatever the output. *)
Theorem momentum_is_two_dimensional (inp out : LabelTensor) :
  (3 <= length (labels inp))%nat -> momentum inp out = None.
Proof.
  intros Hn. unfold momentum.
  destruct (extract out ["ux"]) as [ux|]; [|reflexivity]. cbn [mbind option_bind].
  destruct (nabla (tensor ux) inp) as [lx|] eqn:Elx; [|reflexivity]. cbn [mbind option_bind].
  destruct (LabelTensor_init lx ["x"]) as [nx|] eqn:Enx; [|reflexivity]. cbn [mbind option_bind].
  destruct (extract out ["uy"]) as [uy|]; [|reflexivity]. cbn [mbind option_bind].
  destruct (nabla (tensor uy) inp) as [ly|] eqn:Ely; [|reflexivity]. cbn [mbind option_bind].
  destruct (LabelTensor_init ly ["y"]) as [ny|] eqn:Eny; [|reflexivity]. cbn [mbind option_bind].
  cbv zeta.
  destruct (extract out ["p"]) as [p|]; [|reflexivity]. cbn [mbind option_bind].
  destruct (grad (tensor p) inp) as [gp|] eqn:Egp; [|reflexivity]. cbn [mbind option_bind].
  apply add_widths.
  - unfold neg, hstack. rewrite length_map, length_app.
    rewrite (LabelTensor_init_tensor _ _ _ Enx), (LabelTensor_init_tensor _ _ _ Eny).
    rewrite (nabla_width _ _ _ Elx), (nabla_width _ _ _ Ely). reflexivity.
  - rewrite (grad_width _ _ _ Egp). exact Hn.
Qed.

Lemma momentum_is_two_dimensional_witness :
  momentum (coordinates ["x"; "y"; "z"]) channel_flow = None.
Proof.
  apply (momentum_is_two_dimensional (coordinates ["x"; "y"; "z"]) channel_flow).
  cbn. lia.
Defined.

(** ** Linearity *)

Lemma column_lincomb (a b : Q) (out1 out2 : LabelTensor) (l : string) (g h : graph) :
  labels out1 = labels out2 ->
  column out1 l = Some g -> column out2 l = Some h ->
  column (lincomb a b out1 out2) l = Some (Add (Mul (Const a) g) (Mul (Const b) h)).
Proof.
  unfold column, lincomb. cbn [labels tensor]. intros <-.
  destruct (list_find _ (labels out1)) as [[i ?]|]; cbn [mbind option_bind];
    [|discriminate].
  intros Hg Hh. apply lookup_zip_with_Some. exists g, h. auto.
Qed.

(** X5. The residuals superpose.  For two outputs with the same labels
    and the fields [ux], [uy] and [p], the residual of [a * out1 + b * out2]
    is [a] times the residual of [out1] plus [b] times the residual of
    [out2], for [momentum], [continuity], [outlet] and [wall] with any [a]
    and [b], and for [inlet], whose target is not zero, when [a + b = 1]. *)
Theorem residuals_superpose (sigma : nat -> Q -> Q) (n : residual_name) (a b : Q)
    (out1 out2 : LabelTensor) (ux1 uy1 p1 ux2 uy2 p2 : graph) (pt : point) :
  labels out1 = labels out2 ->
  column out1 "ux" = Some ux1 -> column out1 "uy" = Some uy1 ->
  column out1 "p" = Some p1 ->
  column out2 "ux" = Some ux2 -> column out2 "uy" = Some uy2 ->
  column out2 "p" = Some p2 ->
  (n = Inlet -> a + b == 1) ->
  exists r1 r2 r,
    pure n xy out1 = Some r1 /\ pure n xy out2 = Some r2 /\
    pure n xy (lincomb a b out1 out2) = Some r /\
    Forall2 Qeq (values sigma pt r)
      (zip_with Qplus (map (Qmult a) (values sigma pt r1))
                      (map (Qmult b) (values sigma pt r2))).
Proof.
  intros Hl Hux1 Huy1 Hp1 Hux2 Huy2 Hp2 Hab.
  pose proof (column_lincomb a b _ _ _ _ _ Hl Hux1 Hux2) as Hux.
  pose proof (column_lincomb a b _ _ _ _ _ Hl Huy1 Huy2) as Huy.
  pose proof (column_lincomb a b _ _ _ _ _ Hl Hp1 Hp2) as Hp.
  destruct n; cbn [pure].
  - do 3 eexists. split; [apply momentum_columns; [eassumption .. | reflexivity]|].
    split; [apply momentum_columns; [eassumption .. | reflexivity]|].
    split; [apply momentum_columns; [eassumption .. | reflexivity]|].
    cbn -[Qeq]. repeat constructor; ring.
  - do 3 eexists. split; [apply continuity_columns; [eassumption .. | reflexivity]|].
    split; [apply continuity_columns; [eassumption .. | reflexivity]|].
    split; [apply continuity_columns; [eassumption .. | reflexivity]|].
    cbn -[Qeq]. repeat constructor; ring.
  - do 3 eexists. split; [apply inlet_columns; [eassumption | reflexivity]|].
    split; [apply inlet_columns; [eassumption | reflexivity]|].
    split; [apply inlet_columns; [eassumption | reflexivity]|].
    cbn -[Qeq]. repeat constructor.
    set (v := 2 * (1 - pt "y" ^ Z.of_nat 2)).
    assert (Hv : v == (a + b) * v) by (rewrite (Hab eq_refl); ring).
    rewrite Hv at 1. ring.
  - do 3 eexists. split; [apply outlet_columns; eassumption|].
    split; [apply outlet_columns; eassumption|].
    split; [apply outlet_columns; eassumption|].
    cbn -[Qeq]. repeat constructor; ring.
  - do 3 eexists. split; [apply wall_columns; eassumption|].
    split; [apply wall_columns; eassumption|].
    split; [apply wall_columns; eassumption|].
    cbn -[Qeq]. repeat constructor; ring.
Qed.

Lemma residuals_superpose_witness :
  exists r1 r2 r,
    pure Momentum xy channel_flow = Some r1 /\ pure Momentum xy plug_flow = Some r2 /\
    pure Momentum xy (lincomb 2 3 channel_flow plug_flow) = Some r /\
    Forall2 Qeq (values identity_activation (at_xy 0 0) r)
      (zip_with Qplus (map (Qmult 2) (values identity_activation (at_xy 0 0) r1))
                      (map (Qmult 3) (values identity_activation (at_xy 0 0) r2))).
Proof.
  apply (residuals_superpose identity_activation Momentum 2 3 channel_flow plug_flow
           parabola (Const 0) pressure_drop (Const 1) (Const 0) (Const 0));
    try reflexivity.
  intros H. discriminate H.
Defined.

(** X6. The two equations see derivatives only.  Adding constants to
    [ux], [uy] and [p] changes neither the residual of [momentum] nor that
    of [continuity]; the residual of [outlet] moves by the constant added
    to [p] and that of [wall] by the constants added to the velocity, so
    the boundary conditions alone fix those constants. *)
Theorem equations_ignore_constants (sigma : nat -> Q -> Q) (out out' : LabelTensor)
    (ux uy p : graph) (cx cy cp : Q) (pt : point) :
  column out "ux" = Some ux -> column out "uy" = Some uy -> column out "p" = Some p ->
  column out' "ux" = Some (Add ux (Const cx)) ->
  column out' "uy" = Some (Add uy (Const cy)) ->
  column out' "p" = Some (Add p (Const cp)) ->
  (exists m m', momentum xy out = Some m /\ momentum xy out' = Some m' /\
     Forall2 Qeq (values sigma pt m') (values sigma pt m)) /\
  (exists k k', continuity xy out = Some k /\ continuity xy out' = Some k' /\
     Forall2 Qeq (values sigma pt k') (values sigma pt k)) /\
  (exists o o', outlet xy out = Some o /\ outlet xy out' = Some o' /\
     Forall2 Qeq (values sigma pt o') (map (Qplus cp) (values sigma pt o))) /\
  (exists w w', wall xy out = Some w /\ wall xy out' = Some w' /\
     Forall2 Qeq (values sigma pt w')
       (zip_with Qplus [cx; cy] (values sigma pt w))).
Proof.
  intros Hux Huy Hp Hux' Huy' Hp'. repeat split.
  - do 2 eexists. split; [apply momentum_columns; [eassumption .. | reflexivity]|].
    split; [apply momentum_columns; [eassumption .. | reflexivity]|].
    cbn -[Qeq]. repeat constructor; ring.
  - do 2 eexists. split; [apply continuity_columns; [eassumption .. | reflexivity]|].
    split; [apply continuity_columns; [eassumption .. | reflexivity]|].
    cbn -[Qeq]. repeat constructor; ring.
  - do 2 eexists. split; [apply outlet_columns; eassumption|].
    split; [apply outlet_columns; eassumption|].
    cbn -[Qeq]. repeat constructor; ring.
  - do 2 eexists. split; [apply wall_columns; eassumption|].
    split; [apply wall_columns; eassumption|].
    cbn -[Qeq]. repeat constructor; ring.
Qed.

Lemma equations_ignore_constants_witness :
  (exists m m', momentum xy poiseuille = Some m /\ momentum xy shifted_flow = Some m' /\
     Forall2 Qeq (values identity_activation (at_xy 0 0) m')
       (values identity_activation (at_xy 0 0) m)) /\
  (exists k k', continuity xy poiseuille = Some k /\
     continuity xy shifted_flow = Some k' /\
     Forall2 Qeq (values identity_activation (at_xy 0 0) k')
       (values identity_activation (at_xy 0 0) k)) /\
  (exists o o', outlet xy poiseuille = Some o /\ outlet xy shifted_flow = Some o' /\
     Forall2 Qeq (values identity_activation (at_xy 0 0) o')
       (map (Qplus 3) (values identity_activation (at_xy 0 0) o))) /\
  (exists w w', wall xy poiseuille = Some w /\ wall xy shifted_flow = Some w' /\
     Forall2 Qeq (values identity_activation (at_xy 0 0) w')
       (zip_with Qplus [1; 2] (values identity_activation (at_xy 0 0) w))).
Proof.
  apply (equations_ignore_constants identity_activation poiseuille shifted_flow
           parabola (Const 0) (Const 0) 1 2 3); reflexivity.
Defined.

(** ** The exact solution *)

(** X7. The problem has an exact solution.  For a polynomial network
    whose outputs are [ux = 2 * (1 - y^2)], [uy = 0] and [p = 4 * (2 - x)]
    at every point, every residual function of every condition is zero at
    every point of the condition's region: both walls, outlet, inlet, and
    [momentum] and [continuity] on [D]. *)
Theorem channel_flow_satisfies_every_condition (sigma : nat -> Q -> Q)
    (name : string) (c : Condition) (f : residual) (out : LabelTensor)
    (ux uy p : graph) (pt : point) :
  conditions Stokes !! name = Some c -> In f (functions_list (function c)) ->
  column out "ux" = Some ux -> column out "uy" = Some uy -> column out "p" = Some p ->
  polynomial ux = true -> polynomial uy = true -> polynomial p = true ->
  (forall pt, eval sigma pt ux == 2 * (1 - pt "y" ^ 2)) ->
  (forall pt, eval sigma pt uy == 0) ->
  (forall pt, eval sigma pt p == 4 * (2 - pt "x")) ->
  contains (location c) pt ->
  exists r, f xy out = Some r /\ vanishes (values sigma pt r).
Proof.
  intros Hc Hf Hux Huy Hp Pux Puy Pp Eux Euy Ep Hpt.
  assert (Dp : forall l pt, eval sigma pt (D l p) == eval sigma pt (D l pressure_drop)).
  { intros l. apply D_extensional; [exact Pp | reflexivity | exact Ep]. }
  destruct (conditions_cases _ _ Hc) as [[_ ->]|[[_ ->]|[[_ ->]|[[_ ->]|[_ ->]]]]];
    cbn [function location functions_list] in Hf, Hpt;
    rewrite !contains_pair in Hpt; cbn [within] in Hpt;
    destruct Hpt as (Hx & Hy & _).
  - destruct Hf as [<-|[]]. eexists. split; [apply wall_columns; eassumption|].
    cbn -[Qeq]. apply vanishes_two. rewrite Eux, Euy, Hy. split; reflexivity.
  - destruct Hf as [<-|[]]. eexists. split; [apply wall_columns; eassumption|].
    cbn -[Qeq]. apply vanishes_two. rewrite Eux, Euy, Hy. split; reflexivity.
  - destruct Hf as [<-|[]]. eexists. split; [apply outlet_columns; eassumption|].
    cbn -[Qeq]. apply vanishes_one. rewrite Ep, Hx. reflexivity.
  - destruct Hf as [<-|[]]. eexists.
    split; [apply inlet_columns; [eassumption | reflexivity]|].
    cbn -[Qeq]. apply vanishes_one. rewrite Eux. fold_numerals. ring.
  - destruct Hf as [<-|[<-|[]]].
    + eexists. split; [apply momentum_columns; [eassumption .. | reflexivity]|].
      apply vanishes_two. cbn [values map eval].
      rewrite (proj2 (scenario_ux sigma ux Pux Eux "x" pt)),
              (proj2 (scenario_ux sigma ux Pux Eux "y" pt)).
      rewrite (proj2 (scenario_zero sigma uy "x" pt Puy Euy)),
              (proj2 (scenario_zero sigma uy "y" pt Puy Euy)).
      rewrite !Dp. split; cbn -[Qeq]; fold_numerals; ring.
    + eexists. split; [apply continuity_columns; [eassumption .. | reflexivity]|].
      apply vanishes_one. apply (scenario_continuity sigma ux uy); assumption.
Qed.

Lemma channel_flow_satisfies_every_condition_witness :
  exists r, momentum xy channel_flow = Some r /\
            vanishes (values identity_activation (at_xy 1 (1#2)) r).
Proof.
  apply (channel_flow_satisfies_every_condition identity_activation "D"
           (mkCondition [("x", Range (-2) 2); ("y", Range (-1) 1)]
              (Several [momentum; continuity]))
           momentum channel_flow parabola (Const 0) pressure_drop (at_xy 1 (1#2)));
    try reflexivity.
  - left. reflexivity.
  - repeat constructor; cbn; lra.
Defined.

(** ** The sides of the channel *)

Lemma contains_in (pt : point) :
  contains (region "gamma_in") pt <-> pt "x" == -2 /\ (-1 <= pt "y" /\ pt "y" <= 1).
Proof.
  change (region "gamma_in") with [("x", Fixed (-2)); ("y", Range (-1) 1)].
  rewrite !contains_pair, contains_nil. cbn. tauto.
Qed.

Lemma contains_out (pt : point) :
  contains (region "gamma_out") pt <-> pt "x" == 2 /\ (-1 <= pt "y" /\ pt "y" <= 1).
Proof.
  change (region "gamma_out") with [("x", Fixed 2); ("y", Range (-1) 1)].
  rewrite !contains_pair, contains_nil. cbn. tauto.
Qed.

(** X8. At the two corners where the inlet meets a wall the boundary
    conditions do not compete: the inflow profile is zero there, so an
    output whose [wall] residual is zero at such a point has a zero
    [inlet] residual too. *)
Theorem wall_implies_inlet_at_corners (sigma : nat -> Q -> Q) (out : LabelTensor)
    (ux uy : graph) (pt : point) :
  column out "ux" = Some ux -> column out "uy" = Some uy ->
  contains (region "gamma_in") pt ->
  contains (region "gamma_top") pt \/ contains (region "gamma_bot") pt ->
  exists w i, wall xy out = Some w /\ inlet xy out = Some i /\
    (vanishes (values sigma pt w) -> vanishes (values sigma pt i)).
Proof.
  intros Hux Huy Hin Hwall.
  assert (Hy : pt "y" == 1 \/ pt "y" == -1).
  { destruct Hwall as [H|H]; [apply contains_top in H | apply contains_bot in H]; tauto. }
  do 2 eexists. split; [apply wall_columns; eassumption|].
  split; [apply inlet_columns; [eassumption | reflexivity]|].
  cbn -[Qeq]. rewrite vanishes_two, vanishes_one. intros [H0 _].
  fold_numerals. destruct Hy as [-> | ->]; lra.
Qed.

Lemma wall_implies_inlet_at_corners_witness :
  exists w i, wall xy channel_flow = Some w /\ inlet xy channel_flow = Some i /\
    (vanishes (values identity_activation (at_xy (-2) 1) w) ->
     vanishes (values identity_activation (at_xy (-2) 1) i)).
Proof.
  apply (wall_implies_inlet_at_corners identity_activation channel_flow
           parabola (Const 0) (at_xy (-2) 1)).
  - reflexivity.
  - reflexivity.
  - repeat constructor; cbn; lra.
  - left. repeat constructor; cbn; lra.
Defined.

(** X9. The four boundary conditions cover the boundary of the domain and
    nothing else: a point of the spatial domain lies in the region of
    [gamma_top], [gamma_bot], [gamma_out] or [gamma_in] exactly when
    [x = -2], [x = 2], [y = -1] or [y = 1]. *)
Theorem sides_cover_the_boundary (pt : point) :
  contains (spatial_domain Stokes) pt ->
  (contains (region "gamma_top") pt \/ contains (region "gamma_bot") pt \/
   contains (region "gamma_out") pt \/ contains (region "gamma_in") pt)
  <-> (pt "x" == -2 \/ pt "x" == 2 \/ pt "y" == -1 \/ pt "y" == 1).
Proof.
  rewrite contains_domain, contains_top, contains_bot, contains_out, contains_in.
  intros [[Hx1 Hx2] [Hy1 Hy2]]. tauto.
Qed.

Lemma sides_cover_the_boundary_witness :
  (contains (region "gamma_top") (at_xy (1#2) 1) \/
   contains (region "gamma_bot") (at_xy (1#2) 1) \/
   contains (region "gamma_out") (at_xy (1#2) 1) \/
   contains (region "gamma_in") (at_xy (1#2) 1))
  <-> (at_xy (1#2) 1 "x" == -2 \/ at_xy (1#2) 1 "x" == 2 \/
       at_xy (1#2) 1 "y" == -1 \/ at_xy (1#2) 1 "y" == 1).
Proof.
  apply (sides_cover_the_boundary (at_xy (1#2) 1)).
  repeat constructor; cbn; lra.
Defined.

(** X10. Opposite sides of the channel share no point, and two adjacent
    sides share exactly their corner: the regions of [gamma_top] and
    [gamma_in] meet in [(-2, 1)] only, and likewise for the other three
    corners. *)
Theorem sides_meet_at_corners (pt : point) :
  ~ (contains (region "gamma_top") pt /\ contains (region "gamma_bot") pt) /\
  ~ (contains (region "gamma_in") pt /\ contains (region "gamma_out") pt) /\
  (contains (region "gamma_top") pt /\ contains (region "gamma_in") pt
     <-> pt "x" == -2 /\ pt "y" == 1) /\
  (contains (region "gamma_top") pt /\ contains (region "gamma_out") pt
     <-> pt "x" == 2 /\ pt "y" == 1) /\
  (contains (region "gamma_bot") pt /\ contains (region "gamma_in") pt
     <-> pt "x" == -2 /\ pt "y" == -1) /\
  (contains (region "gamma_bot") pt /\ contains (region "gamma_out") pt
     <-> pt "x" == 2 /\ pt "y" == -1).
Proof.
  rewrite contains_top, contains_bot, contains_in, contains_out.
  split; [|split; [|split; [|split; [|split]]]].
  1, 2: intros G; decompose [and] G; lra.
  all: split; intros G; decompose [and] G; repeat split; lra.
Qed.

(** X11. Every region is well formed: it constrains the variables of the
    spatial domain, [x] and [y], and no other, and none of its ranges is
    reversed, so it has a point. *)
Theorem regions_are_well_formed (name : string) (c : Condition) :
  conditions Stokes !! name = Some c ->
  Permutation (map fst (location c)) (map fst (spatial_domain Stokes)) /\
  exists pt, contains (location c) pt.
Proof.
  intros Hc. split; [exact (region_keys name c Hc)|].
  destruct (conditions_cases _ _ Hc) as [[_ ->]|[[_ ->]|[[_ ->]|[[_ ->]|[_ ->]]]]];
    cbn [location].
  - exists (at_xy 0 1). repeat constructor; cbn; lra.
  - exists (at_xy 0 (-1)). repeat constructor; cbn; lra.
  - exists (at_xy 2 0). repeat constructor; cbn; lra.
  - exists (at_xy (-2) 0). repeat constructor; cbn; lra.
  - exists (at_xy 0 0). repeat constructor; cbn; lra.
Qed.

Lemma regions_are_well_formed_witness :
  Permutation (map fst [("x", Range (-2) 2); ("y", Fixed 1)])
    (map fst (spatial_domain Stokes)) /\
  exists pt, contains [("x", Range (-2) 2); ("y", Fixed 1)] pt.
Proof.
  apply (regions_are_well_formed "gamma_top"
           (mkCondition [("x", Range (-2) 2); ("y", Fixed 1)] (Single wall))).
  reflexivity.
Defined.

(** X12. On the inlet the prescribed profile stays between [0] and [2]:
    wherever the [inlet] residual is zero, the horizontal velocity [ux]
    is at least [0], so the flow points into the channel, and at most
    [2]. *)
Theorem inlet_profile_bounds (sigma : nat -> Q -> Q) (out : LabelTensor)
    (ux : graph) (pt : point) :
  column out "ux" = Some ux -> contains (region "gamma_in") pt ->
  exists r, inlet xy out = Some r /\
    (vanishes (values sigma pt r) ->
     0 <= eval sigma pt ux /\ eval sigma pt ux <= 2).
Proof.
  intros Hux Hin. apply contains_in in Hin as [_ [Hlo Hhi]].
  eexists. split; [apply inlet_columns; [eassumption | reflexivity]|].
  cbn -[Qeq]. rewrite vanishes_one. fold_numerals.
  change (pt "y" ^ 2) with (pt "y" * pt "y"). intros H. nra.
Qed.

Lemma inlet_profile_bounds_witness :
  exists r, inlet xy channel_flow = Some r /\
    (vanishes (values identity_activation (at_xy (-2) (1#2)) r) ->
     0 <= eval identity_activation (at_xy (-2) (1#2)) parabola /\
     eval identity_activation (at_xy (-2) (1#2)) parabola <= 2).
Proof.
  apply (inlet_profile_bounds identity_activation channel_flow parabola
           (at_xy (-2) (1#2))).
  - reflexivity.
  - repeat constructor; cbn; lra.
Defined.
